(** * A ZIP container codec: the archive model, the header codecs and the
      entry cache, embedded from the TypeScript sources.

    - [JS]       the fragment of the JavaScript platform the sources rely on:
                 exceptions, [ArrayBuffer]/[DataView], [Blob], the ordered [Map]
                 and the text codec;
    - [ZipEntry] the class of [src/ZipEntry.ts];
    - [Zip]      the classes [ZipArchive] and [ZipEntry] of the single-file
                 version of the library (readers, writers, [fromBlob], [toBlob]).

    Numbers are [Z]; a byte buffer is a [list byte]; a function that can throw
    returns a [JS.result]. *)

From Stdlib Require Import ZArith List Bool Lia.
From Stdlib Require Import Strings.String Strings.Ascii Strings.Byte.
Import ListNotations.
Open Scope Z_scope.

(* ================================================================= *)
(** ** The JavaScript platform *)

Module JS.

(** Exceptions the sources can raise: the platform's [RangeError] (a typed-array
    access out of bounds), its [ReferenceError] (an identifier bound nowhere) and
    [new Error(message)]. *)
Inductive error : Type :=
| RangeError
| ReferenceError (identifier : string)
| Error (message : string).

Inductive result (A : Type) : Type :=
| Ok (a : A)
| Throw (e : error).
Arguments Ok {A} a.
Arguments Throw {A} e.

Definition bind {A B : Type} (c : result A) (k : A -> result B) : result B :=
  match c with
  | Ok a => k a
  | Throw e => Throw e
  end.

(** A value a function can hand back when it has no [return] of its own. *)
Inductive value : Type :=
| undefined
| boolean (b : bool).

(** *** Bytes and buffers *)

Definition Z_of_byte (b : byte) : Z := Z.of_N (Byte.to_N b).

(** The low eight bits of a number, as a byte (what a typed array stores). *)
Definition byte_of_Z (z : Z) : byte :=
  match Byte.of_N (Z.to_N (Z.land z 255)) with
  | Some b => b
  | None => x00
  end.

Definition ArrayBuffer : Type := list byte.

Definition new_ArrayBuffer (length : Z) : ArrayBuffer :=
  repeat x00 (Z.to_nat length).

Definition byteLength (buffer : ArrayBuffer) : Z :=
  Z.of_nat (List.length buffer).

(** A [DataView] is always created over a whole buffer ([new DataView(buffer)]),
    so a view position is a buffer position. *)
Definition DataView : Type := ArrayBuffer.

Definition in_bounds (view : DataView) (offset n : Z) : bool :=
  (0 <=? offset) && (0 <=? n) && (offset + n <=? byteLength view).

Definition bytes_at (view : DataView) (offset n : Z) : list byte :=
  firstn (Z.to_nat n) (skipn (Z.to_nat offset) view).

(** Little-endian value of a byte string (every access passes [true]). *)
Fixpoint le_value (bs : list byte) : Z :=
  match bs with
  | [] => 0
  | b :: rest => Z_of_byte b + 256 * le_value rest
  end.

(** The [n] low bytes of a number, least significant first: the stored number
    is taken modulo [2^(8n)]. *)
Fixpoint le_bytes (n : nat) (v : Z) : list byte :=
  match n with
  | O => []
  | S k => byte_of_Z v :: le_bytes k (Z.shiftr v 8)
  end.

Definition splice (buffer : list byte) (offset : Z) (bs : list byte) : list byte :=
  firstn (Z.to_nat offset) buffer ++ bs
    ++ skipn (Z.to_nat offset + List.length bs) buffer.

Definition getUint (n : nat) (view : DataView) (offset : Z) : result Z :=
  if in_bounds view offset (Z.of_nat n)
  then Ok (le_value (bytes_at view offset (Z.of_nat n)))
  else Throw RangeError.

Definition setUint (n : nat) (view : DataView) (offset v : Z) : result DataView :=
  if in_bounds view offset (Z.of_nat n)
  then Ok (splice view offset (le_bytes n v))
  else Throw RangeError.

Definition getUint16 : DataView -> Z -> result Z := getUint 2.
Definition getUint32 : DataView -> Z -> result Z := getUint 4.
Definition setUint16 : DataView -> Z -> Z -> result DataView := setUint 2.
Definition setUint32 : DataView -> Z -> Z -> result DataView := setUint 4.

(** [new Uint8Array(buffer, byteOffset, length)]: a window on the buffer. *)
Definition new_Uint8Array (buffer : ArrayBuffer) (byteOffset length : Z)
  : result (list byte) :=
  if in_bounds buffer byteOffset length
  then Ok (bytes_at buffer byteOffset length)
  else Throw RangeError.

(** [uintview.set(source, offset)]. *)
Definition Uint8Array_set (buffer : ArrayBuffer) (source : list byte) (offset : Z)
  : result ArrayBuffer :=
  if in_bounds buffer offset (Z.of_nat (List.length source))
  then Ok (splice buffer offset source)
  else Throw RangeError.

(** *** Blobs *)

Definition Blob : Type := list byte.

Definition Blob_size (blob : Blob) : Z := Z.of_nat (List.length blob).

(** An end of a slice, relative to the blob: a negative one counts from the
    end of the blob, and both are kept within it. *)
Definition relative (x size : Z) : Z :=
  if x <? 0 then Z.max (size + x) 0 else Z.min x size.

(** [blob.slice(start, end)]. *)
Definition Blob_slice (blob : Blob) (start end_ : Z) : Blob :=
  let relativeStart := relative start (Blob_size blob) in
  let relativeEnd := relative end_ (Blob_size blob) in
  let span := Z.max (relativeEnd - relativeStart) 0 in
  firstn (Z.to_nat span) (skipn (Z.to_nat relativeStart) blob).

(** [new Blob(parts)]. *)
Definition new_Blob (parts : list (list byte)) : Blob := List.concat parts.

(** A [Blob] object where its identity matters: a [WeakMap] compares its keys
    by identity, never by content. *)
Record BlobObject : Type := {
  identity : nat;
  content : Blob
}.

Definition WeakMap (V : Type) : Type := list (nat * V).

Fixpoint WeakMap_get {V : Type} (m : WeakMap V) (key : BlobObject) : option V :=
  match m with
  | [] => None
  | (k, v) :: rest =>
      if Nat.eqb k (identity key) then Some v else WeakMap_get rest key
  end.

Definition WeakMap_set {V : Type} (m : WeakMap V) (key : BlobObject) (v : V)
  : WeakMap V :=
  (identity key, v) :: m.

(** *** Text *)

(** [TextEncoder.encode] and [TextDecoder.decode] (UTF-8) belong to the
    platform; the development is parametric in them. *)
Class TextCodec : Type := {
  TextEncoder_encode : string -> list byte;
  TextDecoder_decode : list byte -> string
}.

(** [str.endsWith(suffix)]. *)
Definition endsWith (str suffix : string) : bool :=
  let n := String.length str in
  let k := String.length suffix in
  (k <=? n)%nat && String.eqb (substring (n - k) k str) suffix.

(** *** The insertion-ordered [Map] with string keys *)

Definition Map (V : Type) : Type := list (string * V).

Fixpoint Map_get {V : Type} (m : Map V) (key : string) : option V :=
  match m with
  | [] => None
  | (k, v) :: rest => if String.eqb k key then Some v else Map_get rest key
  end.

(** [map.set(key, v)]: a present key keeps its place, a new key goes last. *)
Fixpoint Map_set {V : Type} (m : Map V) (key : string) (v : V) : Map V :=
  match m with
  | [] => [(key, v)]
  | (k, v0) :: rest =>
      if String.eqb k key then (k, v) :: rest else (k, v0) :: Map_set rest key v
  end.

(** *** The operator [&] *)

(** [ToInt32]: a number as a signed 32-bit integer. *)
Definition ToInt32 (z : Z) : Z := (z + 2 ^ 31) mod 2 ^ 32 - 2 ^ 31.

(** [a & b]. *)
Definition bitand (a b : Z) : Z := Z.land (ToInt32 a) (ToInt32 b).

End JS.

Notation "x <- c ;; k" := (JS.bind c (fun x => k))
  (at level 61, c at next level, right associativity).

(* ================================================================= *)
(** ** [src/ZipEntry.ts] *)

Module ZipEntry.
Import JS.

Definition ZIP_VERSION : Z := 20.

(** The signatures imported from [constants.js], with the values the
    single-file version declares. *)
Definition HEADER_CD : Z := 0x02014b50.
Definition HEADER_LOCAL : Z := 0x04034b50.

(** The calendar fields of a [Date]. *)
Record Date : Type := {
  year : Z;
  month : Z;
  day : Z;
  hours : Z;
  minutes : Z;
  seconds : Z
}.

(** Modelled from the spec: [dos_time.js] is not among the sources.  The DOS
    date packs [(year-1980)<<9 | month<<5 | day], the DOS time packs
    [hour<<11 | minute<<5 | second/2]; the caller destructures [[date, time]]. *)
Definition dos_time_from_date (d : Date) : Z * Z :=
  (Z.lor (Z.lor (Z.shiftl (year d - 1980) 9) (Z.shiftl (month d) 5)) (day d),
   Z.lor (Z.lor (Z.shiftl (hours d) 11) (Z.shiftl (minutes d) 5)) (seconds d / 2)).

(** Modelled from the spec: [assert.js] is not among the sources.  [assert] has
    the meaning its call site relies on: it throws an error carrying the
    message when the condition is false and does nothing otherwise. *)
Definition assert (condition : bool) (message : string) : result unit :=
  if condition then Ok tt else Throw (Error message).

Record t : Type := {
  blob : BlobObject;
  extra : option (list byte);
  comment : option (list byte);
  internal_file_attr : Z;
  external_file_attr : Z;
  modified : Date;
  crc : Z;
  uncompressed_size : Z;
  compression : Z
}.

(** The constructor; [now] is the value of [new Date]. *)
Definition new_ZipEntry (now : Date) (blob : BlobObject)
  (compression_type size crc : Z) : t :=
  {| blob := blob; extra := None; comment := None;
     internal_file_attr := 0; external_file_attr := 0; modified := now;
     crc := crc; uncompressed_size := size; compression := compression_type |}.

Definition is_compressed (this : t) : bool := negb (compression this =? 0).

Definition size (this : t) : Z := uncompressed_size this.

Definition compressed_size (this : t) : Z := Blob_size (content (blob this)).

Definition get_backing_object (this : t) : BlobObject := blob this.

(** The module-level cache [inflated_entries], and the blobs the decompression
    collaborator has been called with (most recent first). *)
Record World : Type := {
  inflated_entries : WeakMap BlobObject;
  decompress_calls : list BlobObject
}.

(** An [async] function runs up to its first [await]: it has then settled, or
    it is pending on the awaited promise, here the one that an invocation of
    the decompression collaborator returned.  Invocations are numbered from
    0, in the order in which they are made. *)
Inductive Promise (A : Type) : Type :=
| Settled (r : result A)
| Pending (invocation : nat).
Arguments Settled {A} r.
Arguments Pending {A} invocation.

Section WithPlatform.

Context {codec : TextCodec}.

(** [decompress] of [compression.js], another module: what the promise of
    its invocation of a given number on a given blob settles to.  Two
    invocations on one blob need not hand back the same object. *)
Variable compression_decompress : nat -> BlobObject -> result BlobObject.

(** [encode_utf8_string] of [string.js]: the platform's UTF-8 encoder. *)
Definition encode_utf8_string (str : string) : list byte := TextEncoder_encode str.

(** [decompress], up to [await decompress(this.blob)]. *)
Definition decompress_begin (this : t) (w : World) : Promise BlobObject * World :=
  match WeakMap_get (inflated_entries w) (blob this) with
  | Some existing => (Settled (Ok existing), w)
  | None =>
      (Pending (List.length (decompress_calls w)),
       {| inflated_entries := inflated_entries w;
          decompress_calls := blob this :: decompress_calls w |})
  end.

(** [decompress], from the point where the awaited promise, the one of the
    caller's own invocation, has settled. *)
Definition decompress_resume (this : t) (invocation : nat) (w : World)
  : result BlobObject * World :=
  match compression_decompress invocation (blob this) with
  | Ok result =>
      (Ok result,
       {| inflated_entries := WeakMap_set (inflated_entries w) (blob this) result;
          decompress_calls := decompress_calls w |})
  | Throw e => (Throw e, w)
  end.

Definition generate_local (this : t) (filename : string) : result ArrayBuffer :=
  let encoded_filename := encode_utf8_string filename in
  let N := Z.of_nat (List.length encoded_filename) in
  let M := match extra this with
           | Some x => Z.of_nat (List.length x)
           | None => 0
           end in
  let length := 30 + N + M in
  let buffer := new_ArrayBuffer length in
  let '(date, time) := dos_time_from_date (modified this) in
  view <- setUint32 buffer 0 HEADER_LOCAL ;;
  view <- setUint16 view 4 ZIP_VERSION ;;
  view <- setUint16 view 6 0 ;;
  view <- setUint16 view 8 (compression this) ;;
  view <- setUint16 view 10 time ;;
  view <- setUint16 view 12 date ;;
  view <- setUint32 view 16 (crc this) ;;
  view <- setUint32 view 20 (compressed_size this) ;;
  view <- setUint32 view 24 (uncompressed_size this) ;;
  view <- setUint16 view 26 N ;;
  view <- setUint16 view 28 M ;;
  view <- Uint8Array_set view encoded_filename 30 ;;
  view <- match extra this with
          | Some x => Uint8Array_set view x (30 + N)
          | None => Ok view
          end ;;
  Ok view.

Definition generate_cd (this : t) (filename : string) (local_position : Z)
  : result ArrayBuffer :=
  let encoded_filename := encode_utf8_string filename in
  let N := Z.of_nat (List.length encoded_filename) in
  let M := match extra this with
           | Some x => Z.of_nat (List.length x)
           | None => 0
           end in
  let K := match comment this with
           | Some c => Z.of_nat (List.length c)
           | None => 0
           end in
  let length := 46 + M + N + K in
  let buffer := new_ArrayBuffer length in
  let '(date, time) := dos_time_from_date (modified this) in
  view <- setUint32 buffer 0 HEADER_CD ;;
  view <- setUint16 view 4 ZIP_VERSION ;;
  view <- setUint16 view 6 ZIP_VERSION ;;
  view <- setUint16 view 8 0 ;;
  view <- setUint16 view 10 (compression this) ;;
  view <- setUint16 view 12 time ;;
  view <- setUint16 view 14 date ;;
  view <- setUint32 view 16 (crc this) ;;
  view <- setUint32 view 20 (compressed_size this) ;;
  view <- setUint32 view 24 (uncompressed_size this) ;;
  view <- setUint16 view 28 N ;;
  view <- setUint16 view 30 M ;;
  view <- setUint16 view 32 K ;;
  view <- setUint16 view 34 0 ;;
  view <- setUint16 view 36 (bitand (internal_file_attr this) 0xFFFF) ;;
  view <- setUint32 view 38 (bitand (external_file_attr this) 0xFFFFFFFF) ;;
  view <- setUint32 view 42 local_position ;;
  view <- Uint8Array_set view encoded_filename 46 ;;
  view <- match extra this with
          | Some x => Uint8Array_set view x (46 + N)
          | None => Ok view
          end ;;
  view <- match comment this with
          | Some c => Uint8Array_set view c (46 + N + M)
          | None => Ok view
          end ;;
  Ok view.

(** [get_blob], up to its first suspension. *)
Definition get_blob_begin (this : t) (w : World) : Promise BlobObject * World :=
  if compression this =? 8 then decompress_begin this w
  else
    (Settled (_ <- assert (negb (compression this =? 0))
                     "Incompatible compression type" ;;
              Ok (blob this)),
     w).

(** One call of [get_blob], awaited to completion before anything else runs. *)
Definition get_blob (this : t) (w : World) : result BlobObject * World :=
  match get_blob_begin this w with
  | (Settled r, w') => (r, w')
  | (Pending invocation, w') => decompress_resume this invocation w'
  end.

(** *** Callers of [get_blob] on one entry *)

Inductive caller : Type :=
| NotCalled
| Suspended (invocation : nat)
| Returned (r : result BlobObject).

Definition issue (this : t) (c : caller) (w : World) : caller * World :=
  match c with
  | NotCalled =>
      match get_blob_begin this w with
      | (Settled r, w') => (Returned r, w')
      | (Pending invocation, w') => (Suspended invocation, w')
      end
  | _ => (c, w)
  end.

Definition settle (this : t) (c : caller) (w : World) : caller * World :=
  match c with
  | Suspended invocation =>
      let '(r, w') := decompress_resume this invocation w in (Returned r, w')
  | _ => (c, w)
  end.

Fixpoint for_each (step : caller -> World -> caller * World)
  (cs : list caller) (w : World) : list caller * World :=
  match cs with
  | [] => ([], w)
  | c :: rest =>
      let '(c', w') := step c w in
      let '(rest', w'') := for_each step rest w' in
      (c' :: rest', w'')
  end.

(** [N] calls issued one after the other before any of them is resumed, as in
    [Promise.all([e.get_blob(), ..., e.get_blob()])]; the suspended calls are
    then resumed in turn. *)
Definition concurrently (this : t) (N : nat) (w : World) : list caller * World :=
  let '(cs, w') := for_each (issue this) (repeat NotCalled N) w in
  for_each (settle this) cs w'.

(** [N] calls, each awaited before the next one is issued. *)
Definition sequentially (this : t) (N : nat) (w : World) : list caller * World :=
  for_each (fun c w0 => let '(c', w') := issue this c w0 in settle this c' w')
           (repeat NotCalled N) w.

End WithPlatform.

End ZipEntry.

(* ================================================================= *)
(** ** The single-file version: [ZipArchive] and its [ZipEntry] *)

Module Zip.
Import JS.

Definition HEADER_EOCDR : Z := 0x06054b50.
Definition HEADER_CD : Z := 0x02014b50.
Definition HEADER_LOCAL : Z := 0x04034b50.

(** Reading an identifier that no scope of the file binds. *)
Definition unbound {A : Type} (identifier : string) : result A :=
  Throw (ReferenceError identifier).

Record ZipEntry : Type := {
  blob : Blob;
  compressed : bool
}.

Definition new_ZipEntry (blob : Blob) (isCompressed : bool) : ZipEntry :=
  {| blob := blob; compressed := isCompressed |}.

Definition getBackingObject (this : ZipEntry) : Blob := blob this.

Record ZipArchive : Type := {
  entries : Map ZipEntry
}.

Definition new_ZipArchive : ZipArchive := {| entries := [] |}.

(** What [readLocal], [readCD] and [readEOCDR] return. *)
Module Local.
Record t : Type := {
  type : string;
  signature : Z;
  version : Z;
  flag : Z;
  compression : Z;
  time : Z;
  date : Z;
  crc : Z;
  compressedSize : Z;
  uncompressedSize : Z;
  nameLength : Z;
  fieldLength : Z;
  fileName : string;
  field : list byte;
  dataLocation : Z
}.
End Local.

Module CD.
Record t : Type := {
  type : string;
  signature : Z;
  version : Z;
  minVersion : Z;
  flag : Z;
  compression : Z;
  time : Z;
  date : Z;
  crc : Z;
  compressedSize : Z;
  uncompressedSize : Z;
  nameLength : Z;
  fieldLength : Z;
  commentLength : Z;
  disk : Z;
  internal : Z;
  external : Z;
  localPosition : Z;
  fileName : string;
  field : list byte;
  comment : string;
  size : Z
}.
End CD.

Module EOCDR.
Record t : Type := {
  type : string;
  signature : Z;
  disk : Z;
  startDisk : Z;
  diskEntries : Z;
  totalEntries : Z;
  CDLength : Z;
  CDOffset : Z;
  commentLength : Z;
  comment : string
}.
End EOCDR.

Section WithCodec.

Context {codec : TextCodec}.

Definition decodeString (buffer : ArrayBuffer) (position length : Z)
  : result string :=
  childView <- new_Uint8Array buffer position length ;;
  Ok (TextDecoder_decode childView).

Definition encodeString (str : string) : list byte := TextEncoder_encode str.

(** *** [ZipEntry] *)

Definition generateLocalHeader (this : ZipEntry) (filename : string)
  (extra : option (list byte)) : result DataView :=
  let offset := 0 in
  let encodedFilename := encodeString filename in
  let length := 30 + Z.of_nat (List.length encodedFilename)
                + match extra with
                  | Some x => Z.of_nat (List.length x)
                  | None => 0
                  end in
  let buffer := new_ArrayBuffer length in
  (* [0, 4] Local file header signature *)
  view <- setUint32 buffer offset HEADER_LOCAL ;;
  let offset := offset + 4 in
  (* [4, 2] minimum required version *)
  view <- setUint16 view offset 0 ;;
  let offset := offset + 2 in
  (* [6, 2] bit flag *)
  view <- setUint16 view offset 0 ;;
  let offset := offset + 2 in
  (* [8, 2] compression method *)
  view <- setUint16 view offset (if compressed this then 8 else 0) ;;
  let offset := offset + 2 in
  (* [10, 2] last modified time *)
  view <- setUint16 view offset 0 ;;
  let offset := offset + 2 in
  (* [12, 2] last modified date *)
  view <- setUint16 view offset 0 ;;
  let offset := offset + 2 in
  (* [14, 4] CRC 32 *)
  view <- setUint32 view offset 0 ;;
  let offset := offset + 4 in
  (* [18, 4] compressed size *)
  view <- setUint32 view offset 0 ;;
  let offset := offset + 4 in
  (* [22, 4] uncompressed size *)
  view <- setUint32 view offset 0 ;;
  let offset := offset + 4 in
  (* [26, 2] file name length (n) *)
  view <- setUint16 view offset (Z.of_nat (List.length encodedFilename)) ;;
  let offset := offset + 2 in
  (* [28, 2] extra field length (m) *)
  view <- setUint16 view offset match extra with
                                | Some x => Z.of_nat (List.length x)
                                | None => 0
                                end ;;
  let offset := offset + 2 in
  (* [30, n] file name *)
  view <- Uint8Array_set view encodedFilename offset ;;
  let offset := offset + Z.of_nat (List.length encodedFilename) in
  (* [30 + n, m] extra field *)
  view <- match extra with
          | Some x => Uint8Array_set view x offset
          | None => Ok view
          end ;;
  Ok view.

(** A [comment] is encoded when it is truthy: present and not the empty
    string. *)
Definition truthy_string (s : option string) : option string :=
  match s with
  | Some EmptyString => None
  | other => other
  end.

Definition generateCentralHeader (this : ZipEntry) (filename : string)
  (extra : option (list byte)) (comment : option string) : result DataView :=
  let offset := 0 in
  let encodedFilename := encodeString filename in
  let encodedComment := option_map encodeString (truthy_string comment) in
  let length := 30 + Z.of_nat (List.length encodedFilename)
                + match extra with
                  | Some x => Z.of_nat (List.length x)
                  | None => 0
                  end
                + match encodedComment with
                  | Some c => Z.of_nat (List.length c)
                  | None => 0
                  end in
  let buffer := new_ArrayBuffer length in
  (* [0, 4] CD signature *)
  view <- setUint32 buffer offset HEADER_CD ;;
  let offset := offset + 4 in
  (* [4, 2] version made by *)
  view <- setUint16 view offset 0 ;;
  let offset := offset + 2 in
  (* [6, 2] minimum required version *)
  view <- setUint16 view offset 0 ;;
  let offset := offset + 2 in
  (* [8, 2] bit flag *)
  view <- setUint16 view offset 0 ;;
  let offset := offset + 2 in
  (* [10, 2] compression method ( 0 = none / 8 = deflate ) *)
  view <- setUint16 view offset (if compressed this then 8 else 0) ;;
  let offset := offset + 2 in
  (* [12, 2] last modified time *)
  view <- setUint16 view offset 0 ;;
  let offset := offset + 2 in
  (* [14, 2] last modified date *)
  view <- setUint16 view offset 0 ;;
  let offset := offset + 2 in
  (* [16, 4] CRC 32 *)
  view <- setUint32 view offset 0 ;;
  let offset := offset + 4 in
  (* [20, 4] compressed size *)
  view <- setUint32 view offset 0 ;;
  let offset := offset + 4 in
  (* [24, 4] uncompressed size *)
  view <- setUint32 view offset 0 ;;
  let offset := offset + 4 in
  (* [28, 2] file name length (n) *)
  view <- setUint16 view offset (Z.of_nat (List.length encodedFilename)) ;;
  let offset := offset + 2 in
  (* [30, 2] extra field length (m) *)
  view <- setUint16 view offset match extra with
                                | Some x => Z.of_nat (List.length x)
                                | None => 0
                                end ;;
  let offset := offset + 2 in
  (* [32, 2] file comment length (k) *)
  view <- setUint16 view offset match encodedComment with
                                | Some c => Z.of_nat (List.length c)
                                | None => 0
                                end ;;
  let offset := offset + 2 in
  (* [34, 2] disk number where file starts *)
  view <- setUint16 view offset 0 ;;
  let offset := offset + 2 in
  (* [36, 2] internal file attributes *)
  view <- setUint16 view offset 0 ;;
  let offset := offset + 2 in
  (* [38, 4] external file attributes *)
  view <- setUint32 view offset 0 ;;
  let offset := offset + 4 in
  (* [42, 4] offset of local file header: [localPosition] is neither a
     parameter nor a variable of the file, and the argument is evaluated
     before the call *)
  localPosition <- unbound "localPosition" ;;
  view <- setUint32 view offset localPosition ;;
  let offset := offset + 4 in
  (* [46, n] file name *)
  view <- Uint8Array_set view encodedFilename offset ;;
  let offset := offset + Z.of_nat (List.length encodedFilename) in
  (* [46 + n, m] extra field *)
  view <- match extra with
          | Some x => Uint8Array_set view x offset
          | None => Ok view
          end ;;
  let offset := offset + match extra with
                         | Some x => Z.of_nat (List.length x)
                         | None => 0
                         end in
  (* [46 + n + m, k] file comment *)
  view <- match encodedComment with
          | Some c => Uint8Array_set view c offset
          | None => Ok view
          end ;;
  Ok view.

(** *** The readers *)

Definition readLocal (view : DataView) (position : Z) : result Local.t :=
  let offset := position in
  (* [0, 4] Local file header signature *)
  signature <- getUint32 view offset ;;
  let offset := offset + 4 in
  (* [4, 2] minimum required version *)
  version <- getUint16 view offset ;;
  let offset := offset + 2 in
  (* [6, 2] bit flag *)
  flag <- getUint16 view offset ;;
  let offset := offset + 2 in
  (* [8, 2] compression method *)
  compression <- getUint16 view offset ;;
  let offset := offset + 2 in
  (* [10, 2] last modified time *)
  time <- getUint16 view offset ;;
  let offset := offset + 2 in
  (* [12, 2] last modified date *)
  date <- getUint16 view offset ;;
  let offset := offset + 2 in
  (* [14, 4] CRC 32 *)
  crc <- getUint32 view offset ;;
  let offset := offset + 4 in
  (* [18, 4] compressed size *)
  compressedSize <- getUint32 view offset ;;
  let offset := offset + 4 in
  (* [22, 4] uncompressed size *)
  uncompressedSize <- getUint32 view offset ;;
  let offset := offset + 4 in
  (* [26, 2] file name length (n) *)
  nameLength <- getUint16 view offset ;;
  let offset := offset + 2 in
  (* [28, 2] extra field length (m) *)
  fieldLength <- getUint16 view offset ;;
  let offset := offset + 2 in
  (* [30, n] file name *)
  fileName <- decodeString view offset nameLength ;;
  let offset := offset + nameLength in
  (* [30 + n, m] extra field *)
  field <- new_Uint8Array view offset fieldLength ;;
  let offset := offset + fieldLength in
  let dataLocation := offset in
  let offset := offset + compressedSize in
  Ok {| Local.type := "LOCAL";
        Local.signature := signature;
        Local.version := version;
        Local.flag := flag;
        Local.compression := compression;
        Local.time := time;
        Local.date := date;
        Local.crc := crc;
        Local.compressedSize := compressedSize;
        Local.uncompressedSize := uncompressedSize;
        Local.nameLength := nameLength;
        Local.fieldLength := fieldLength;
        Local.fileName := fileName;
        Local.field := field;
        Local.dataLocation := dataLocation |}.

Definition readCD (view : DataView) (position : Z) : result CD.t :=
  let offset := position in
  (* [0, 4] CD signature *)
  signature <- getUint32 view offset ;;
  let offset := offset + 4 in
  (* [4, 2] version made by *)
  version <- getUint16 view offset ;;
  let offset := offset + 2 in
  (* [6, 2] minimum required version *)
  minVersion <- getUint16 view offset ;;
  let offset := offset + 2 in
  (* [8, 2] bit flag *)
  flag <- getUint16 view offset ;;
  let offset := offset + 2 in
  (* [10, 2] compression method ( 0 = none / 8 = deflate ) *)
  compression <- getUint16 view offset ;;
  let offset := offset + 2 in
  (* [12, 2] last modified time *)
  time <- getUint16 view offset ;;
  let offset := offset + 2 in
  (* [14, 2] last modified date *)
  date <- getUint16 view offset ;;
  let offset := offset + 2 in
  (* [16, 4] CRC 32 *)
  crc <- getUint32 view offset ;;
  let offset := offset + 4 in
  (* [20, 4] compressed size *)
  compressedSize <- getUint32 view offset ;;
  let offset := offset + 4 in
  (* [24, 4] uncompressed size *)
  uncompressedSize <- getUint32 view offset ;;
  let offset := offset + 4 in
  (* [28, 2] file name length (n) *)
  nameLength <- getUint16 view offset ;;
  let offset := offset + 2 in
  (* [30, 2] extra field length (m) *)
  fieldLength <- getUint16 view offset ;;
  let offset := offset + 2 in
  (* [32, 2] file comment length (k) *)
  commentLength <- getUint16 view offset ;;
  let offset := offset + 2 in
  (* [34, 2] disk number where file starts *)
  disk <- getUint16 view offset ;;
  let offset := offset + 2 in
  (* [36, 2] internal file attributes *)
  internal <- getUint16 view offset ;;
  let offset := offset + 2 in
  (* [38, 4] external file attributes *)
  external <- getUint32 view offset ;;
  let offset := offset + 4 in
  (* [42, 4] offset of local file header, relative to start of archive *)
  localPosition <- getUint32 view offset ;;
  let offset := offset + 4 in
  (* [46, n] file name *)
  fileName <- decodeString view offset nameLength ;;
  let offset := offset + nameLength in
  (* [46 + n, m] extra field *)
  field <- new_Uint8Array view offset fieldLength ;;
  let offset := offset + fieldLength in
  (* [46 + n + m, k] file comment *)
  comment <- decodeString view offset commentLength ;;
  let offset := offset + commentLength in
  let size := offset - position in
  Ok {| CD.type := "CD";
        CD.signature := signature;
        CD.version := version;
        CD.minVersion := minVersion;
        CD.flag := flag;
        CD.compression := compression;
        CD.time := time;
        CD.date := date;
        CD.crc := crc;
        CD.compressedSize := compressedSize;
        CD.uncompressedSize := uncompressedSize;
        CD.nameLength := nameLength;
        CD.fieldLength := fieldLength;
        CD.commentLength := commentLength;
        CD.disk := disk;
        CD.internal := internal;
        CD.external := external;
        CD.localPosition := localPosition;
        CD.fileName := fileName;
        CD.field := field;
        CD.comment := comment;
        CD.size := size |}.

(** The body of [while (position--)] in [findEOCDR]: the test has seen a
    non-zero [position] and has decremented it. *)
Fixpoint findEOCDR_loop (view : DataView) (position : nat) : result Z :=
  match position with
  | O => Throw (Error "No end of central directory record found")
  | S position' =>
      SIG <- getUint32 view (Z.of_nat position') ;;
      if SIG =? HEADER_EOCDR then Ok (Z.of_nat position')
      else findEOCDR_loop view position'
  end.

Definition findEOCDR (view : DataView) : result Z :=
  let length := byteLength view in
  let position := length - 4 in
  if position <? 0
  then (* a negative number is truthy: the first read is at [position - 1] *)
    SIG <- getUint32 view (position - 1) ;; Throw RangeError
  else findEOCDR_loop view (Z.to_nat position).

Definition readEOCDR (view : DataView) (position : Z) : result EOCDR.t :=
  let offset := position in
  (* [0, 4] EOCDR signature *)
  signature <- getUint32 view offset ;;
  let offset := offset + 4 in
  (* [4, 2] Number of disk *)
  disk <- getUint16 view offset ;;
  let offset := offset + 2 in
  (* [6, 2] Disk where CD starts *)
  startDisk <- getUint16 view offset ;;
  let offset := offset + 2 in
  (* [8, 2] Number of CD records on this disk *)
  diskEntries <- getUint16 view offset ;;
  let offset := offset + 2 in
  (* [10, 2] Total number of CD records *)
  totalEntries <- getUint16 view offset ;;
  let offset := offset + 2 in
  (* [12, 4] Size of CD *)
  CDLength <- getUint32 view offset ;;
  let offset := offset + 4 in
  (* [16, 4] Offset of CD, relative to start of archive *)
  CDOffset <- getUint32 view offset ;;
  let offset := offset + 4 in
  (* [20, 2] Comment length (n) *)
  commentLength <- getUint16 view offset ;;
  let offset := offset + 2 in
  (* [22, n] Comment *)
  comment <- decodeString view offset commentLength ;;
  let offset := offset + commentLength in
  Ok {| EOCDR.type := "END";
        EOCDR.signature := signature;
        EOCDR.disk := disk;
        EOCDR.startDisk := startDisk;
        EOCDR.diskEntries := diskEntries;
        EOCDR.totalEntries := totalEntries;
        EOCDR.CDLength := CDLength;
        EOCDR.CDOffset := CDOffset;
        EOCDR.commentLength := commentLength;
        EOCDR.comment := comment |}.

(** *** [ZipArchive] *)

Definition verifyPath (this : ZipArchive) (name : string) : unit := tt.

(** [has] verifies the path and ends: it has no [return]. *)
Definition has (this : ZipArchive) (name : string) : value :=
  let _ := verifyPath this name in
  undefined.

Definition get (this : ZipArchive) (name : string) : option ZipEntry :=
  let _ := verifyPath this name in
  Map_get (entries this) name.

Definition set (this : ZipArchive) (name : string) (file : Blob)
  : ZipEntry * ZipArchive :=
  let _ := verifyPath this name in
  let entry := new_ZipEntry file false in
  (entry, {| entries := Map_set (entries this) name entry |}).

Definition setCompressed (this : ZipArchive) (name : string) (file : Blob)
  : ZipArchive :=
  let entry := new_ZipEntry file true in
  {| entries := Map_set (entries this) name entry |}.

(** The body of [generateEOCDR] is the body of [readEOCDR], statement for
    statement, reading from [position] and [view], which nothing binds; it
    returns nothing. *)
Definition generateEOCDR (this : ZipArchive) (CDOffset records : Z)
  : result value :=
  position <- unbound "position" ;;
  view <- unbound "view" ;;
  _ <- readEOCDR view position ;;
  Ok undefined.

(** The [for (const [name, entry] of this.entries)] loop of [toBlob]. *)
Fixpoint toBlob_entries (remaining : Map ZipEntry)
  (parts : list (list byte)) (offset : Z) (directories : list DataView)
  : result (list (list byte) * Z * list DataView) :=
  match remaining with
  | [] => Ok (parts, offset, directories)
  | (name, entry) :: rest =>
      let location := offset in
      local <- generateLocalHeader entry name None ;;
      let file := getBackingObject entry in
      let offset := offset + (byteLength local + Blob_size file) in
      let parts := parts ++ [local; file] in
      cd <- generateCentralHeader entry name None None ;;
      let directories := directories ++ [cd] in
      toBlob_entries rest parts offset directories
  end.

Definition toBlob (this : ZipArchive) : result Blob :=
  state <- toBlob_entries (entries this) [] 0 [] ;;
  let '(parts, offset, directories) := state in
  let CDOffset := offset in
  let parts := parts ++ directories in
  EOCDR <- generateEOCDR this CDOffset (Z.of_nat (List.length directories)) ;;
  Ok (new_Blob parts).

(** One turn of the [while (position < length)] loop of [fromBlob]: the new
    [position] and the archive. *)
Definition fromBlob_step (view : DataView) (blob : Blob) (offset position : Z)
  (archive : ZipArchive) : result (Z * ZipArchive) :=
  SIG <- getUint32 view (position + offset) ;;
  if SIG =? HEADER_CD then
    entry <- readCD view (position + offset) ;;
    let position := position + CD.size entry in
    if endsWith (CD.fileName entry) "/" then
      (* folder *)
      Ok (position, archive)
    else
      (* file *)
      local <- readLocal view (CD.localPosition entry) ;;
      let subblob :=
        Blob_slice blob (Local.dataLocation local)
          (Local.dataLocation local + Local.compressedSize local) in
      let isCompressed := Local.compression local =? 8 in
      if isCompressed
      then Ok (position, setCompressed archive (Local.fileName local) subblob)
      else Ok (position, snd (set archive (Local.fileName local) subblob))
  else Throw (Error "UNKNOWN").

(** The loop itself; [None] when [fuel] turns do not reach its exit. *)
Fixpoint fromBlob_loop (fuel : nat) (view : DataView) (blob : Blob)
  (offset length position : Z) (archive : ZipArchive)
  : option (result ZipArchive) :=
  if position <? length then
    match fuel with
    | O => None
    | S fuel' =>
        match fromBlob_step view blob offset position archive with
        | Throw e => Some (Throw e)
        | Ok (position', archive') =>
            fromBlob_loop fuel' view blob offset length position' archive'
        end
    end
  else Some (Ok archive).

(** [fromBlob], from the point where [await ReadBlob(blob)] has handed over
    the bytes of the blob.  A rejection of that promise, with the error of
    the [FileReader], leaves [fromBlob] before this point and is no part of
    what follows.  Every turn of the loop moves [position] forward, so
    [CDLength] turns are enough. *)
Definition fromBlob (blob : Blob) : option (result ZipArchive) :=
  let archive := new_ZipArchive in
  let buffer : ArrayBuffer := blob in
  let view : DataView := buffer in
  match findEOCDR view with
  | Throw e => Some (Throw e)
  | Ok EOCDRPosition =>
      match readEOCDR view EOCDRPosition with
      | Throw e => Some (Throw e)
      | Ok EOCDR =>
          let position := 0 in
          let offset := EOCDR.CDOffset EOCDR in
          let length := EOCDR.CDLength EOCDR in
          fromBlob_loop (Z.to_nat length) view blob offset length position archive
      end
  end.

End WithCodec.

(** *** The rest of the two classes *)

Definition NOT_IMPLEMENTED {A : Type} (name : string) : result A :=
  Throw (Error (String.append name " is not implemented")).

(** [inflatedEntries.get(key)]: the file creates the map and never writes
    to it, so a lookup finds nothing. *)
Definition inflatedEntries_get (key : Blob) : option Blob := None.

(** [ZipEntry.decompress]: what its promise resolves to. *)
Definition decompress (this : ZipEntry) : Blob :=
  match inflatedEntries_get (blob this) with
  | Some existing => existing
  | None => blob this
  end.

(** [ZipEntry.getBlob]: what its promise resolves to. *)
Definition getBlob (this : ZipEntry) : Blob :=
  if compressed this then decompress this else blob this.

Definition compressBlob (this : ZipArchive) (file : Blob) : result Blob :=
  _ <- NOT_IMPLEMENTED (A := unit) "ZipArchive.compressBlob" ;;
  Ok file.

(** [compressEntry]: what its promise settles to. *)
Definition compressEntry (this : ZipArchive) (name : string) : result ZipEntry :=
  let entry := get this name in
  match entry with
  | None =>
      Throw (Error (String.append "Entry "
                      (String.append name " does not exist")))
  | Some entry =>
      if negb (compressed entry) then
        let blob := getBlob entry in
        deflatedBlob <- compressBlob this blob ;;
        let newEntry := new_ZipEntry deflatedBlob true in
        Ok newEntry
      else Ok entry
  end.

Definition files (this : ZipArchive) : list (string * ZipEntry) :=
  entries this.

End Zip.

(* ================================================================= *)
(** ** Concrete archives *)

Module Samples.
Import JS.

(** Rocq strings hold the UTF-8 code units of a text; on such text the
    platform codec is the identity on the representation.  The sample names
    below are ASCII. *)
Definition utf8 : TextCodec :=
  {| TextEncoder_encode := list_byte_of_string;
     TextDecoder_decode := string_of_list_byte |}.

Definition u16 (v : Z) : list byte := le_bytes 2 v.
Definition u32 (v : Z) : list byte := le_bytes 4 v.
Definition name_length (name : string) : Z := Z.of_nat (String.length name).

(** A Local file header in the layout [readLocal] documents. *)
Definition local_header (flag compression crc compressedSize uncompressedSize : Z)
  (name : string) : list byte :=
  u32 Zip.HEADER_LOCAL ++ u16 20 ++ u16 flag ++ u16 compression
    ++ u16 0 ++ u16 0
    ++ u32 crc ++ u32 compressedSize ++ u32 uncompressedSize
    ++ u16 (name_length name) ++ u16 0
    ++ list_byte_of_string name.

(** A Central Directory record in the layout [readCD] documents. *)
Definition cd_record (flag compression crc compressedSize uncompressedSize : Z)
  (localPosition : Z) (name : string) : list byte :=
  u32 Zip.HEADER_CD ++ u16 20 ++ u16 20 ++ u16 flag ++ u16 compression
    ++ u16 0 ++ u16 0
    ++ u32 crc ++ u32 compressedSize ++ u32 uncompressedSize
    ++ u16 (name_length name) ++ u16 0 ++ u16 0
    ++ u16 0 ++ u16 0 ++ u32 0
    ++ u32 localPosition
    ++ list_byte_of_string name.

(** An EOCDR in the layout [readEOCDR] documents. *)
Definition eocdr (totalEntries CDLength CDOffset : Z) (comment : list byte)
  : list byte :=
  u32 Zip.HEADER_EOCDR ++ u16 0 ++ u16 0 ++ u16 totalEntries ++ u16 totalEntries
    ++ u32 CDLength ++ u32 CDOffset
    ++ u16 (Z.of_nat (List.length comment)) ++ comment.

(** The raw DEFLATE stream of the two bytes of "hi", and their CRC-32. *)
Definition hi_deflated : list byte := map byte_of_Z [203; 200; 4; 0].
Definition hi_crc : Z := 0xd8932aac.

(** One DEFLATE member written by a streaming writer: bit 3 of the flag is
    set, the Local header leaves CRC and sizes at zero, a data descriptor
    follows the payload, and the Central Directory carries the real values.
    Local header at 0, payload at 31, descriptor at 35, CD at 51, EOCDR at
    98. *)
Definition streamed_zip : Blob :=
  local_header 8 8 0 0 0 "a"
    ++ hi_deflated
    ++ (u32 0x08074b50 ++ u32 hi_crc ++ u32 4 ++ u32 2)
    ++ cd_record 8 8 hi_crc 4 2 0 "a"
    ++ eocdr 1 47 51 [].

(** Three stored one-byte members, and an EOCDR that declares five.
    Members at 0, 32, 64; CD at 96 (three records of 47 bytes); EOCDR at
    237. *)
Definition miscounted_zip : Blob :=
  (local_header 0 0 0 1 1 "a" ++ [byte_of_Z 120])
    ++ (local_header 0 0 0 1 1 "b" ++ [byte_of_Z 121])
    ++ (local_header 0 0 0 1 1 "c" ++ [byte_of_Z 122])
    ++ cd_record 0 0 0 1 1 0 "a"
    ++ cd_record 0 0 0 1 1 32 "b"
    ++ cd_record 0 0 0 1 1 64 "c"
    ++ eocdr 5 141 96 [].

(** An empty archive whose five-byte comment starts with the bytes of the
    EOCDR signature: the record is at 0, the comment at 22, 27 bytes in all. *)
Definition commented_zip : Blob :=
  eocdr 0 0 0 (u32 Zip.HEADER_EOCDR ++ [byte_of_Z 33]).

(** An archive holding "hello.txt" with the content "hi". *)
Definition hello_archive : Zip.ZipArchive :=
  snd (Zip.set Zip.new_ZipArchive "hello.txt" (list_byte_of_string "hi")).

Definition noon : ZipEntry.Date :=
  {| ZipEntry.year := 2020; ZipEntry.month := 1; ZipEntry.day := 2;
     ZipEntry.hours := 12; ZipEntry.minutes := 0; ZipEntry.seconds := 0 |}.

Definition hi_blob : BlobObject :=
  {| identity := 1; content := list_byte_of_string "hi" |}.

Definition hi_deflated_blob : BlobObject :=
  {| identity := 2; content := hi_deflated |}.

(** "hi", stored. *)
Definition stored_entry : ZipEntry.t :=
  ZipEntry.new_ZipEntry noon hi_blob 0 2 hi_crc.

(** "hi", deflated. *)
Definition deflated_entry : ZipEntry.t :=
  ZipEntry.new_ZipEntry noon hi_deflated_blob 8 2 hi_crc.

(** A decompression collaborator that inflates the sample payload, into a
    new blob at every invocation. *)
Definition inflate (invocation : nat) (b : BlobObject) : result BlobObject :=
  Ok {| identity := 100 + identity b + invocation;
        content := list_byte_of_string "hi" |}.

Definition empty_world : ZipEntry.World :=
  {| ZipEntry.inflated_entries := []; ZipEntry.decompress_calls := [] |}.


(** A decompression collaborator that rejects every payload. *)
Definition corrupt (invocation : nat) (b : BlobObject) : result BlobObject :=
  Throw (Error "invalid stored block lengths").

(** An entry with an extra field and a comment. *)
Definition annotated_entry : ZipEntry.t :=
  {| ZipEntry.blob := hi_deflated_blob;
     ZipEntry.extra := Some (map byte_of_Z [1; 2; 3]);
     ZipEntry.comment := Some (list_byte_of_string "note");
     ZipEntry.internal_file_attr := 1;
     ZipEntry.external_file_attr := 0x81a40000;
     ZipEntry.modified := noon;
     ZipEntry.crc := hi_crc;
     ZipEntry.uncompressed_size := 2;
     ZipEntry.compression := 8 |}.

End Samples.

(* ================================================================= *)
(** ** What a parsed archive is compared with *)

Module Region.
Import JS.

(** The bytes of an optional field: none when it is absent. *)
Definition bytes_of (field : option (list byte)) : list byte :=
  match field with
  | Some x => x
  | None => []
  end.

Section WithCodec.

Context {codec : TextCodec}.

(** The Central Directory records decodable one after the other in the
    region [[offset, offset + length)] of a view, from [position] on: each
    starts with the Central Directory signature and is followed by the next
    one, until the region is used up. *)
Inductive decodable (view : DataView) (offset length : Z)
  : Z -> list Zip.CD.t -> Prop :=
| decodable_end (position : Z) :
    length <= position ->
    decodable view offset length position []
| decodable_record (position : Z) (cd : Zip.CD.t) (rest : list Zip.CD.t) :
    position < length ->
    getUint32 view (position + offset) = Ok Zip.HEADER_CD ->
    Zip.readCD view (position + offset) = Ok cd ->
    decodable view offset length (position + Zip.CD.size cd) rest ->
    decodable view offset length position (cd :: rest).

(** A record that names a folder, or whose Local header can be read. *)
Definition locatable (view : DataView) (cd : Zip.CD.t) : Prop :=
  endsWith (Zip.CD.fileName cd) "/" = false ->
  exists local, Zip.readLocal view (Zip.CD.localPosition cd) = Ok local.

(** The bytes that records take when they are laid out one after the
    other: where the walk stands when it has passed them from 0. *)
Definition span (cds : list Zip.CD.t) : Z :=
  fold_right (fun cd total => Zip.CD.size cd + total) 0 cds.

(** A record that does not name a folder. *)
Definition is_file (cd : Zip.CD.t) : bool :=
  negb (endsWith (Zip.CD.fileName cd) "/").

(** What filing one record does to the entries of an archive: nothing when
    it names a folder, and otherwise an entry under the name of the Local
    header it points to. *)
Definition file_record (view : DataView) (blob : Blob)
  (m : Map Zip.ZipEntry) (cd : Zip.CD.t) : Map Zip.ZipEntry :=
  if endsWith (Zip.CD.fileName cd) "/" then m
  else
    match Zip.readLocal view (Zip.CD.localPosition cd) with
    | Ok local =>
        Map_set m (Zip.Local.fileName local)
          (Zip.new_ZipEntry
             (Blob_slice blob (Zip.Local.dataLocation local)
                (Zip.Local.dataLocation local
                 + Zip.Local.compressedSize local))
             (Zip.Local.compression local =? 8))
    | Throw _ => m
    end.

End WithCodec.

End Region.

(* ================================================================= *)
(** ** Facts about the platform fragment *)

Open Scope string_scope.
Open Scope list_scope.
Open Scope Z_scope.

Section PlatformFacts.
Import JS.

Lemma bind_Ok {A B : Type} (c : result A) (k : A -> result B) (b : B) :
  JS.bind c k = Ok b -> exists a, c = Ok a /\ k a = Ok b.
Proof.
  destruct c as [a | e]; simpl; intros H; [eauto | discriminate].
Qed.

Lemma Z_of_byte_nonneg (b : byte) : 0 <= Z_of_byte b.
Proof. unfold Z_of_byte. lia. Qed.

Lemma le_value_nonneg (bs : list byte) : 0 <= le_value bs.
Proof.
  induction bs as [| b rest IH]; cbn [le_value]; [lia |].
  pose proof (Z_of_byte_nonneg b). lia.
Qed.

Lemma getUint_nonneg (n : nat) (view : DataView) (offset v : Z) :
  getUint n view offset = Ok v -> 0 <= v.
Proof.
  unfold getUint. destruct (in_bounds view offset (Z.of_nat n)); intros H.
  - injection H as <-. apply le_value_nonneg.
  - discriminate.
Qed.

Lemma getUint_in_bounds (n : nat) (view : DataView) (offset : Z) :
  0 <= offset -> offset + Z.of_nat n <= byteLength view ->
  exists v, getUint n view offset = Ok v.
Proof.
  intros H0 H1. unfold getUint, in_bounds.
  replace (0 <=? offset) with true by (symmetry; apply Z.leb_le; lia).
  replace (0 <=? Z.of_nat n) with true by (symmetry; apply Z.leb_le; lia).
  replace (offset + Z.of_nat n <=? byteLength view) with true
    by (symmetry; apply Z.leb_le; lia).
  simpl. eauto.
Qed.

Lemma getUint_negative (n : nat) (view : DataView) (offset : Z) :
  offset < 0 -> getUint n view offset = Throw RangeError.
Proof.
  intros H. unfold getUint, in_bounds.
  replace (0 <=? offset) with false by (symmetry; apply Z.leb_gt; lia).
  reflexivity.
Qed.

Lemma getUint_Throw (n : nat) (view : DataView) (offset : Z) (e : error) :
  getUint n view offset = Throw e -> e = RangeError.
Proof.
  unfold getUint. destruct (in_bounds view offset (Z.of_nat n)); intros H.
  - discriminate.
  - now injection H.
Qed.

Lemma new_Uint8Array_Throw (buffer : ArrayBuffer) (byteOffset length : Z)
  (e : error) :
  new_Uint8Array buffer byteOffset length = Throw e -> e = RangeError.
Proof.
  unfold new_Uint8Array. destruct (in_bounds buffer byteOffset length);
    intros H.
  - discriminate.
  - now injection H.
Qed.

Lemma Map_get_set_same {V : Type} (m : Map V) (key : string) (v : V) :
  Map_get (Map_set m key v) key = Some v.
Proof.
  induction m as [| [k v0] rest IH]; simpl.
  - now rewrite String.eqb_refl.
  - destruct (String.eqb k key) eqn:E; simpl; rewrite E; auto.
Qed.

Lemma Map_get_set_inv {V : Type} (m : Map V) (key name : string) (v e : V) :
  Map_get (Map_set m key v) name = Some e ->
  (name = key /\ e = v) \/ Map_get m name = Some e.
Proof.
  induction m as [| [k v0] rest IH]; simpl.
  - destruct (String.eqb key name) eqn:E; [| discriminate].
    apply String.eqb_eq in E. intros H. injection H as <-. auto.
  - destruct (String.eqb k key) eqn:E; simpl.
    + apply String.eqb_eq in E. subst k.
      destruct (String.eqb key name) eqn:E'; auto.
      apply String.eqb_eq in E'. intros H. injection H as <-. auto.
    + destruct (String.eqb k name); auto.
Qed.

End PlatformFacts.

(** Case analysis on the first computation of a chain of [<- ;;]. *)
Ltac bind_step :=
  match goal with
  | |- context [JS.bind ?c _] => destruct c eqn:?; cbn [JS.bind]
  end.

(** Inversion of a chain of [<- ;;] known to return. *)
Ltac bind_inv H :=
  repeat match type of H with
  | JS.bind _ _ = JS.Ok _ =>
      let a := fresh "a" in
      let Ha := fresh "Ha" in
      apply bind_Ok in H; destruct H as (a & Ha & H)
  end.

(* ================================================================= *)
(** ** [src/ZipEntry.ts]: reading an entry *)

Section EntryFacts.
Import JS ZipEntry.

Variable decompress : nat -> BlobObject -> result BlobObject.

(** C2.  For an entry whose compression code is not DEFLATE (8), [get_blob]
    throws "Incompatible compression type" when the code is STORE (0), and
    returns the backing blob for every other code. *)
Theorem get_blob_by_compression (this : t) (w : World) :
  compression this <> 8 ->
  get_blob decompress this w
  = (if compression this =? 0
     then Throw (Error "Incompatible compression type")
     else Ok (blob this),
     w).
Proof.
  intros H. unfold get_blob, get_blob_begin.
  destruct (compression this =? 8) eqn:E8.
  - apply Z.eqb_eq in E8. contradiction.
  - destruct (compression this =? 0); reflexivity.
Qed.

End EntryFacts.

Lemma get_blob_by_compression_witness :
  ZipEntry.compression Samples.stored_entry <> 8
  /\ ZipEntry.get_blob Samples.inflate Samples.stored_entry Samples.empty_world
     = (JS.Throw (JS.Error "Incompatible compression type"), Samples.empty_world).
Proof.
  split.
  - vm_compute. discriminate.
  - apply (get_blob_by_compression Samples.inflate Samples.stored_entry
             Samples.empty_world).
    vm_compute. discriminate.
Defined.

(** C5.  Decoding at position 0 the Local header that [generate_local] writes
    for the stored entry "hi" (CRC 0xd8932aac, both sizes 2) recovers the
    name, the compression method and the data offset 31, but a CRC of
    0x2aac0000, a compressed size of 0x0002d893 and an uncompressed size of
    0x00020000: the encoder writes the three fields at 16, 20 and 24, the
    decoder reads them at 14, 18 and 22. *)
Theorem readLocal_generate_local_fields :
  exists local,
    (buffer <- ZipEntry.generate_local (codec := Samples.utf8)
                 Samples.stored_entry "a" ;;
     Zip.readLocal (codec := Samples.utf8) buffer 0) = JS.Ok local
    /\ Zip.Local.fileName local = "a"
    /\ Zip.Local.compression local = ZipEntry.compression Samples.stored_entry
    /\ Zip.Local.dataLocation local = 31
    /\ ZipEntry.crc Samples.stored_entry = 0xd8932aac
    /\ Zip.Local.crc local = 0x2aac0000
    /\ ZipEntry.compressed_size Samples.stored_entry = 2
    /\ Zip.Local.compressedSize local = 0x0002d893
    /\ ZipEntry.uncompressed_size Samples.stored_entry = 2
    /\ Zip.Local.uncompressedSize local = 0x00020000.
Proof.
  eexists. split; [vm_compute; reflexivity |].
  vm_compute. repeat split.
Qed.

(* ================================================================= *)
(** ** [src/ZipEntry.ts]: the decompression cache under several callers *)

Section CacheFacts.
Import JS ZipEntry.

Variable decompress : nat -> BlobObject -> result BlobObject.
Variable this : t.
Hypothesis deflated : compression this = 8.

Lemma repeat_app_cons {A : Type} (x : A) (n : nat) (l : list A) :
  repeat x n ++ x :: l = x :: repeat x n ++ l.
Proof. induction n as [| n IH]; simpl; [reflexivity | now rewrite IH]. Qed.

Lemma WeakMap_get_set_same {V : Type} (m : WeakMap V) (key : BlobObject) (v : V) :
  WeakMap_get (WeakMap_set m key v) key = Some v.
Proof. unfold WeakMap_set. simpl. now rewrite Nat.eqb_refl. Qed.

Lemma get_blob_begin_cached (w : World) (existing : BlobObject) :
  WeakMap_get (inflated_entries w) (blob this) = Some existing ->
  get_blob_begin this w = (Settled (Ok existing), w).
Proof.
  intros H. unfold get_blob_begin, decompress_begin.
  rewrite deflated, H. reflexivity.
Qed.

Lemma get_blob_begin_uncached (w : World) :
  WeakMap_get (inflated_entries w) (blob this) = None ->
  get_blob_begin this w
  = (Pending (List.length (decompress_calls w)),
     {| inflated_entries := inflated_entries w;
        decompress_calls := blob this :: decompress_calls w |}).
Proof.
  intros H. unfold get_blob_begin, decompress_begin.
  rewrite deflated, H. reflexivity.
Qed.

(** Calls issued while the cache holds the result return it at once. *)
Lemma issue_all_cached (N : nat) (w : World) (existing : BlobObject) :
  WeakMap_get (inflated_entries w) (blob this) = Some existing ->
  for_each (issue this) (repeat NotCalled N) w
  = (repeat (Returned (Ok existing)) N, w).
Proof.
  intros H. induction N as [| N IH]; simpl; [reflexivity |].
  rewrite (get_blob_begin_cached w existing H), IH. reflexivity.
Qed.

(** Calls issued while the cache is empty each start a decompression of
    their own: the next [N] invocations. *)
Lemma issue_all_uncached (N : nat) (w : World) :
  WeakMap_get (inflated_entries w) (blob this) = None ->
  for_each (issue this) (repeat NotCalled N) w
  = (map Suspended (seq (List.length (decompress_calls w)) N),
     {| inflated_entries := inflated_entries w;
        decompress_calls := repeat (blob this) N ++ decompress_calls w |}).
Proof.
  revert w. induction N as [| N IH]; intros w H; simpl.
  - destruct w; reflexivity.
  - rewrite (get_blob_begin_uncached w H), IH by exact H.
    simpl. now rewrite repeat_app_cons.
Qed.

Lemma seq_from (k N : nat) : seq k N = map (Nat.add k) (seq 0 N).
Proof.
  revert k. induction N as [| N IH]; intros k; simpl; [reflexivity |].
  f_equal; [lia |].
  rewrite (IH (S k)), <- seq_shift, map_map.
  apply map_ext. intros i. lia.
Qed.

Lemma settle_returned (r : result BlobObject) (N : nat) (w : World) :
  for_each (settle decompress this) (repeat (Returned r) N) w
  = (repeat (Returned r) N, w).
Proof. induction N as [| N IH]; simpl; [reflexivity | now rewrite IH]. Qed.

(** Resuming the suspended calls gives each caller the result of its own
    invocation and starts no decompression. *)
Lemma settle_all (results : nat -> BlobObject) (N : nat) :
  (forall i, decompress i (blob this) = Ok (results i)) ->
  forall k w,
    fst (for_each (settle decompress this) (map Suspended (seq k N)) w)
    = map (fun i => Returned (Ok (results i))) (seq k N)
    /\ decompress_calls
         (snd (for_each (settle decompress this) (map Suspended (seq k N)) w))
       = decompress_calls w.
Proof.
  intros H. induction N as [| N IH]; intros k w; simpl; [auto |].
  unfold decompress_resume. rewrite H.
  match goal with
  | |- context [for_each ?f ?cs ?w'] =>
      specialize (IH (S k) w'); destruct (for_each f cs w') as [cs' w'']
  end.
  simpl in *. destruct IH as [-> ->]. auto.
Qed.

Lemma sequentially_cached (N : nat) (w : World) (existing : BlobObject) :
  WeakMap_get (inflated_entries w) (blob this) = Some existing ->
  sequentially decompress this N w = (repeat (Returned (Ok existing)) N, w).
Proof.
  intros H. unfold sequentially.
  induction N as [| N IH]; simpl; [reflexivity |].
  rewrite (get_blob_begin_cached w existing H). simpl.
  rewrite IH. reflexivity.
Qed.

(** C7, as the code has it.  On a DEFLATE entry, with a collaborator whose
    invocation number [i] on the entry's blob succeeds with [results i]:
    when a result is already cached, [N] calls of [get_blob], concurrent or
    not, all return it and the collaborator is not invoked; when none is
    and [k] invocations were made before, [N] calls each awaited before the
    next invoke the collaborator once (for [N > 0]) and all return
    [results k], whereas [N] calls issued before any is resumed invoke it
    [N] times, once per caller, and the caller number [i] returns the
    result of its own invocation, [results (k + i)]. *)
Theorem get_blob_decompress_invocations
  (w : World) (results : nat -> BlobObject) (N : nat) :
  (forall i, decompress i (blob this) = Ok (results i)) ->
  match WeakMap_get (inflated_entries w) (blob this) with
  | Some existing =>
      concurrently decompress this N w = (repeat (Returned (Ok existing)) N, w)
      /\ sequentially decompress this N w
         = (repeat (Returned (Ok existing)) N, w)
  | None =>
      let k := List.length (decompress_calls w) in
      (fst (concurrently decompress this N w)
       = map (fun i => Returned (Ok (results (k + i)%nat))) (seq 0 N)
       /\ decompress_calls (snd (concurrently decompress this N w))
          = repeat (blob this) N ++ decompress_calls w)
      /\ (fst (sequentially decompress this N w)
          = repeat (Returned (Ok (results k))) N
          /\ decompress_calls (snd (sequentially decompress this N w))
             = match N with
               | O => []
               | S _ => [blob this]
               end ++ decompress_calls w)
  end.
Proof.
  intros Hd.
  destruct (WeakMap_get (inflated_entries w) (blob this)) as [existing |] eqn:Hc.
  - split.
    + unfold concurrently. rewrite (issue_all_cached N w existing Hc).
      apply settle_returned.
    + apply sequentially_cached, Hc.
  - cbv zeta. split.
    + unfold concurrently. rewrite (issue_all_uncached N w Hc).
      match goal with
      | |- context [for_each (settle decompress this) _ ?w'] =>
          destruct (settle_all results N Hd (List.length (decompress_calls w))
                      w') as [H1 H2]
      end.
      split; [| rewrite H2; reflexivity].
      rewrite H1, seq_from, map_map. reflexivity.
    + destruct N as [| N]; [destruct w; auto |].
      unfold sequentially. simpl.
      rewrite (get_blob_begin_uncached w Hc). simpl.
      unfold decompress_resume. rewrite Hd. simpl.
      match goal with
      | |- context [for_each ?f (repeat NotCalled N) ?w'] =>
          pose proof (sequentially_cached N w'
                        (results (List.length (decompress_calls w)))
                        (WeakMap_get_set_same _ _ _)) as Hs
      end.
      unfold sequentially in Hs. simpl in Hs. rewrite Hs.
      simpl. auto.
Qed.

End CacheFacts.

Lemma get_blob_decompress_invocations_witness :
  let inflated i :=
    {| JS.identity := 102 + i; JS.content := list_byte_of_string "hi" |} in
  ZipEntry.compression Samples.deflated_entry = 8
  /\ (forall i,
        Samples.inflate i (ZipEntry.blob Samples.deflated_entry)
        = JS.Ok (inflated i))
  /\ fst (ZipEntry.concurrently Samples.inflate Samples.deflated_entry 3
            Samples.empty_world)
     = [ZipEntry.Returned (JS.Ok (inflated 0%nat));
        ZipEntry.Returned (JS.Ok (inflated 1%nat));
        ZipEntry.Returned (JS.Ok (inflated 2%nat))]
  /\ ZipEntry.decompress_calls
       (snd (ZipEntry.concurrently Samples.inflate Samples.deflated_entry 3
               Samples.empty_world))
     = repeat Samples.hi_deflated_blob 3
  /\ fst (ZipEntry.sequentially Samples.inflate Samples.deflated_entry 3
            Samples.empty_world)
     = repeat (ZipEntry.Returned (JS.Ok (inflated 0%nat))) 3
  /\ ZipEntry.decompress_calls
       (snd (ZipEntry.sequentially Samples.inflate Samples.deflated_entry 3
               Samples.empty_world))
     = [Samples.hi_deflated_blob].
Proof.
  intros inflated.
  pose proof (get_blob_decompress_invocations Samples.inflate
                Samples.deflated_entry eq_refl Samples.empty_world
                inflated 3 (fun i => eq_refl)) as H.
  simpl in H. destruct H as [[Hr Hc] [Hq Hs]].
  repeat split; assumption.
Defined.

(** C7, as stated, fails: two calls of [get_blob] issued together on one
    DEFLATE entry, not yet cached, invoke the decompression collaborator
    twice, and each caller gets the blob of its own invocation. *)
Lemma two_concurrent_get_blob_decompress_twice :
  let run := ZipEntry.concurrently Samples.inflate Samples.deflated_entry 2
               Samples.empty_world in
  ZipEntry.decompress_calls (snd run)
  = [Samples.hi_deflated_blob; Samples.hi_deflated_blob]
  /\ ~ (List.length (ZipEntry.decompress_calls (snd run)) <= 1)%nat
  /\ fst run
     = [ZipEntry.Returned
          (JS.Ok {| JS.identity := 102;
                    JS.content := list_byte_of_string "hi" |});
        ZipEntry.Returned
          (JS.Ok {| JS.identity := 103;
                    JS.content := list_byte_of_string "hi" |})].
Proof.
  vm_compute. split; [reflexivity | split; [lia | reflexivity]].
Qed.

(* ================================================================= *)
(** ** The single-file version: lookups and serialization *)

Section ArchiveFacts.
Import JS Zip.

Context {codec : TextCodec}.

(** C10.  After [set(name, file)], [get(name)] returns the entry that was
    stored, while [has(name)] returns [undefined], not [true]: [has] only
    verifies the path. *)
Theorem has_returns_undefined (this : ZipArchive) (name : string) (file : Blob) :
  let archive := snd (set this name file) in
  get archive name = Some (new_ZipEntry file false)
  /\ has archive name = undefined
  /\ has archive name <> boolean true.
Proof.
  simpl. unfold get, has. simpl. split; [apply Map_get_set_same |].
  split; [reflexivity | discriminate].
Qed.

Lemma setUint_Throw (n : nat) (view : DataView) (offset v : Z) (e : error) :
  setUint n view offset v = Throw e -> e = RangeError.
Proof.
  unfold setUint. destruct (in_bounds view offset (Z.of_nat n)); intros H.
  - discriminate.
  - now injection H.
Qed.

(** No call of [generateCentralHeader] returns a record. *)
Lemma generateCentralHeader_throws (this : ZipEntry) (filename : string)
  (extra : option (list byte)) (comment : option string) :
  exists e, generateCentralHeader this filename extra comment = Throw e.
Proof.
  unfold generateCentralHeader, unbound. cbv zeta.
  repeat (bind_step; [| eauto]).
  eauto.
Qed.

(** C3.  [generateCentralHeader] never hands back a Central Directory record:
    it throws a [RangeError] when one of the fixed fields does not fit the
    buffer it allocates (30 bytes plus the variable fields), and otherwise a
    [ReferenceError] on [localPosition], the offset it is to store at 42. *)
Theorem generateCentralHeader_stores_no_offset (this : ZipEntry)
  (filename : string) (extra : option (list byte)) (comment : option string) :
  generateCentralHeader this filename extra comment = Throw RangeError
  \/ generateCentralHeader this filename extra comment
     = Throw (ReferenceError "localPosition").
Proof.
  unfold generateCentralHeader, unbound, setUint16, setUint32. cbv zeta.
  repeat (bind_step;
          [| match goal with
             | H : setUint _ _ _ _ = Throw _ |- _ =>
                 apply setUint_Throw in H; subst; now left
             end]).
  now right.
Qed.

Lemma toBlob_entries_throws (name : string) (entry : ZipEntry)
  (rest : Map ZipEntry) (parts : list (list byte)) (offset : Z)
  (directories : list DataView) :
  exists e,
    toBlob_entries ((name, entry) :: rest) parts offset directories = Throw e.
Proof.
  simpl. destruct (generateLocalHeader entry name None); simpl; [| eauto].
  destruct (generateCentralHeader_throws entry name None None) as [e ->].
  simpl. eauto.
Qed.

(** C4.  [toBlob] returns no byte stream, whatever the archive: with no entry
    it stops in [generateEOCDR], which reads [position], bound nowhere; with
    an entry it stops at that entry's Central Directory record.  No EOCDR is
    emitted. *)
Theorem toBlob_emits_no_EOCDR (this : ZipArchive) :
  (exists e, toBlob this = Throw e)
  /\ (entries this = [] -> toBlob this = Throw (ReferenceError "position")).
Proof.
  unfold toBlob. destruct this as [[| [name entry] rest]]; simpl entries.
  - split; [eexists |]; reflexivity.
  - destruct (toBlob_entries_throws name entry rest [] 0 []) as [e ->].
    simpl. split; [eauto | discriminate].
Qed.

End ArchiveFacts.

(** C1.  Serializing the archive that holds "hello.txt" with the content "hi"
    throws a [RangeError]: there is no byte stream to parse back. *)
Theorem toBlob_hello_archive_throws :
  Zip.toBlob (codec := Samples.utf8) Samples.hello_archive
  = JS.Throw JS.RangeError
  /\ Zip.get Samples.hello_archive "hello.txt"
     = Some (Zip.new_ZipEntry (list_byte_of_string "hi") false).
Proof. vm_compute. split; reflexivity. Qed.

(* ================================================================= *)
(** ** The single-file version: locating the EOCDR *)

Section ScanFacts.
Import JS Zip.

Lemma findEOCDR_loop_scan (view : DataView) (n : nat) :
  Z.of_nat n <= byteLength view - 4 ->
  match findEOCDR_loop view n with
  | Ok p =>
      0 <= p < Z.of_nat n
      /\ getUint32 view p = Ok HEADER_EOCDR
      /\ (forall q, p < q < Z.of_nat n -> getUint32 view q <> Ok HEADER_EOCDR)
  | Throw e =>
      e = Error "No end of central directory record found"
      /\ (forall q, 0 <= q < Z.of_nat n -> getUint32 view q <> Ok HEADER_EOCDR)
  end.
Proof.
  induction n as [| n IH]; intros Hn.
  - simpl. split; [reflexivity | intros q Hq; lia].
  - cbn [findEOCDR_loop].
    destruct (getUint_in_bounds 4 view (Z.of_nat n)) as [v Hv]; [lia | lia |].
    fold getUint32 in Hv. rewrite Hv. cbn [JS.bind].
    destruct (v =? HEADER_EOCDR) eqn:E.
    + apply Z.eqb_eq in E. subst v.
      split; [lia |]. split; [exact Hv |]. intros q Hq. lia.
    + apply Z.eqb_neq in E.
      assert (Hmiss : getUint32 view (Z.of_nat n) <> Ok HEADER_EOCDR)
        by (rewrite Hv; intros H; injection H; auto).
      specialize (IH ltac:(lia)).
      destruct (findEOCDR_loop view n) as [p | e].
      * destruct IH as (Hp & Hat & Hmax).
        split; [lia |]. split; [exact Hat |].
        intros q Hq.
        destruct (Z.eq_dec q (Z.of_nat n)) as [-> | Hne];
          [exact Hmiss | apply Hmax; lia].
      * destruct IH as (He & Hnone). split; [exact He |].
        intros q Hq.
        destruct (Z.eq_dec q (Z.of_nat n)) as [-> | Hne];
          [exact Hmiss | apply Hnone; lia].
Qed.

(** C8, as the code has it.  [findEOCDR] tests the positions from
    [length - 5] down to 0: it returns the greatest of them that holds the
    EOCDR signature; it throws "No end of central directory record found"
    exactly when the view has at least 4 bytes and none of them holds it;
    and it throws a [RangeError] exactly when the view has fewer than 4
    bytes. *)
Theorem findEOCDR_scan (view : DataView) :
  (forall p,
     findEOCDR view = Ok p
     <-> 0 <= p <= byteLength view - 5
         /\ getUint32 view p = Ok HEADER_EOCDR
         /\ (forall q, p < q <= byteLength view - 5 ->
                       getUint32 view q <> Ok HEADER_EOCDR))
  /\ (findEOCDR view = Throw (Error "No end of central directory record found")
      <-> 4 <= byteLength view
          /\ (forall q, 0 <= q <= byteLength view - 5 ->
                        getUint32 view q <> Ok HEADER_EOCDR))
  /\ (findEOCDR view = Throw RangeError <-> byteLength view < 4).
Proof.
  unfold findEOCDR. cbv zeta.
  destruct (byteLength view - 4 <? 0) eqn:E.
  - apply Z.ltb_lt in E.
    unfold getUint32. rewrite getUint_negative by lia. cbn [JS.bind].
    split; [| split].
    + intros p. split; [discriminate | intros (Hp & _); lia].
    + split; [discriminate | intros (Hl & _); lia].
    + split; [lia | reflexivity].
  - apply Z.ltb_ge in E.
    pose proof (findEOCDR_loop_scan view (Z.to_nat (byteLength view - 4))
                  ltac:(lia)) as H.
    rewrite Z2Nat.id in H by lia.
    destruct (findEOCDR_loop view (Z.to_nat (byteLength view - 4))) as [p0 | e].
    + destruct H as (Hp & Hat & Hmax).
      split; [| split].
      * intros p. split.
        -- intros Heq. injection Heq as <-.
           split; [lia |]. split; [exact Hat |].
           intros q Hq. apply Hmax. lia.
        -- intros (Hp' & Hat' & Hmax'). f_equal.
           destruct (Z.lt_trichotomy p0 p) as [Hlt | [Heq | Hgt]].
           ++ exfalso. apply (Hmax p); [lia | exact Hat'].
           ++ exact Heq.
           ++ exfalso. apply (Hmax' p0); [lia | exact Hat].
      * split; [discriminate |].
        intros (_ & Hnone). exfalso. apply (Hnone p0); [lia | exact Hat].
      * split; [discriminate | lia].
    + destruct H as (-> & Hnone).
      split; [| split].
      * intros p. split; [discriminate |].
        intros (Hp & Hat & _). exfalso. apply (Hnone p); [lia | exact Hat].
      * split; [| reflexivity].
        intros _. split; [lia |]. intros q Hq. apply Hnone. lia.
      * split; [discriminate | lia].
Qed.

End ScanFacts.

(** C8, as stated, fails: in the 27 bytes of an empty archive whose comment
    starts with the signature bytes, position 0 = length - 27 holds the
    record, and [findEOCDR] returns 22, a position above [length - 22]. *)
Lemma findEOCDR_lands_in_comment :
  JS.byteLength Samples.commented_zip = 27
  /\ JS.getUint32 Samples.commented_zip 0 = JS.Ok Zip.HEADER_EOCDR
  /\ Zip.findEOCDR Samples.commented_zip = JS.Ok 22
  /\ ~ (22 <= JS.byteLength Samples.commented_zip - 22).
Proof.
  split; [reflexivity |]. split; [reflexivity |]. split; [reflexivity |].
  change (JS.byteLength Samples.commented_zip) with 27. lia.
Qed.

(* ================================================================= *)
(** ** The single-file version: parsing *)

Section ParseFacts.
Import JS Zip.

Context {codec : TextCodec}.

Lemma readCD_size (view : DataView) (position : Z) (cd : CD.t) :
  readCD view position = Ok cd -> 46 <= CD.size cd.
Proof.
  unfold readCD, getUint16, getUint32. cbv zeta. intros H. bind_inv H.
  injection H as <-. cbn [CD.size].
  repeat match goal with
         | Hg : getUint _ _ _ = Ok _ |- _ => apply getUint_nonneg in Hg
         end.
  lia.
Qed.

Lemma readLocal_dataLocation (view : DataView) (position : Z) (local : Local.t) :
  readLocal view position = Ok local ->
  Local.dataLocation local
  = position + 30 + Local.nameLength local + Local.fieldLength local.
Proof.
  unfold readLocal. cbv zeta. intros H. bind_inv H.
  injection H as <-.
  cbn [Local.dataLocation Local.nameLength Local.fieldLength]. lia.
Qed.

(** The entry [fromBlob] files for a Local header. *)
Lemma set_or_setCompressed (archive : ZipArchive) (name : string)
  (file : Blob) (isCompressed : bool) :
  (if isCompressed
   then setCompressed archive name file
   else snd (set archive name file))
  = {| entries := Map_set (entries archive) name
                    (new_ZipEntry file isCompressed) |}.
Proof. destruct isCompressed; reflexivity. Qed.

Lemma fromBlob_step_Ok (view : DataView) (blob : Blob) (offset position : Z)
  (archive : ZipArchive) (position' : Z) (archive' : ZipArchive) :
  fromBlob_step view blob offset position archive = Ok (position', archive') ->
  getUint32 view (position + offset) = Ok HEADER_CD
  /\ exists cd,
       readCD view (position + offset) = Ok cd
       /\ position' = position + CD.size cd
       /\ ((endsWith (CD.fileName cd) "/" = true /\ archive' = archive)
           \/ (endsWith (CD.fileName cd) "/" = false
               /\ exists local,
                    readLocal view (CD.localPosition cd) = Ok local
                    /\ archive'
                       = {| entries :=
                              Map_set (entries archive) (Local.fileName local)
                                (new_ZipEntry
                                   (Blob_slice blob (Local.dataLocation local)
                                      (Local.dataLocation local
                                       + Local.compressedSize local))
                                   (Local.compression local =? 8)) |})).
Proof.
  unfold fromBlob_step. intros H.
  apply bind_Ok in H. destruct H as (SIG & HSIG & H).
  destruct (SIG =? HEADER_CD) eqn:E; [| discriminate].
  apply Z.eqb_eq in E. subst SIG. split; [exact HSIG |].
  apply bind_Ok in H. destruct H as (cd & Hcd & H).
  exists cd. split; [exact Hcd |].
  destruct (endsWith (CD.fileName cd) "/") eqn:Hdir.
  - injection H as <- <-. auto.
  - apply bind_Ok in H. destruct H as (local & Hlocal & H).
    cbv zeta in H.
    assert (Hpos : position' = position + CD.size cd
                   /\ archive'
                      = (if Local.compression local =? 8
                         then setCompressed archive (Local.fileName local)
                                (Blob_slice blob (Local.dataLocation local)
                                   (Local.dataLocation local
                                    + Local.compressedSize local))
                         else snd (set archive (Local.fileName local)
                                     (Blob_slice blob (Local.dataLocation local)
                                        (Local.dataLocation local
                                         + Local.compressedSize local)))))
      by (destruct (Local.compression local =? 8);
          injection H as <- <-; auto).
    destruct Hpos as [-> ->]. rewrite set_or_setCompressed.
    split; [reflexivity |]. right. split; [reflexivity |]. eauto.
Qed.

Lemma fromBlob_step_complete (view : DataView) (blob : Blob)
  (offset position : Z) (archive : ZipArchive) (cd : CD.t) :
  getUint32 view (position + offset) = Ok HEADER_CD ->
  readCD view (position + offset) = Ok cd ->
  (endsWith (CD.fileName cd) "/" = false ->
   exists local, readLocal view (CD.localPosition cd) = Ok local) ->
  exists archive',
    fromBlob_step view blob offset position archive
    = Ok (position + CD.size cd, archive').
Proof.
  intros HSIG Hcd Hlocal. unfold fromBlob_step.
  rewrite HSIG. cbn [JS.bind]. rewrite Z.eqb_refl, Hcd. cbn [JS.bind].
  destruct (endsWith (CD.fileName cd) "/"); [eauto |].
  destruct (Hlocal eq_refl) as [local ->]. cbn [JS.bind]. cbv zeta.
  destruct (Local.compression local =? 8); eauto.
Qed.

Lemma decodeString_Throw (buffer : ArrayBuffer) (position length : Z)
  (e : error) :
  decodeString buffer position length = Throw e -> e = RangeError.
Proof.
  unfold decodeString.
  destruct (new_Uint8Array buffer position length) eqn:H; simpl; intros He.
  - discriminate.
  - injection He as <-. now apply new_Uint8Array_Throw in H.
Qed.

(** A reader that throws has read out of bounds. *)
Ltac reader_throws H :=
  repeat (match type of H with
          | JS.bind ?c _ = Throw _ =>
              let Hc := fresh "Hc" in
              destruct c eqn:Hc; cbn [JS.bind] in H;
              [| injection H as <-;
                 first [ now apply getUint_Throw in Hc
                       | now apply decodeString_Throw in Hc
                       | now apply new_Uint8Array_Throw in Hc ] ]
          end);
  try discriminate H.

Lemma readCD_Throw (view : DataView) (position : Z) (e : error) :
  readCD view position = Throw e -> e = RangeError.
Proof.
  unfold readCD, getUint16, getUint32. cbv zeta. intros H. reader_throws H.
Qed.

Lemma readLocal_Throw (view : DataView) (position : Z) (e : error) :
  readLocal view position = Throw e -> e = RangeError.
Proof.
  unfold readLocal, getUint16, getUint32. cbv zeta. intros H. reader_throws H.
Qed.

Lemma readEOCDR_Throw (view : DataView) (position : Z) (e : error) :
  readEOCDR view position = Throw e -> e = RangeError.
Proof.
  unfold readEOCDR, getUint16, getUint32. cbv zeta. intros H. reader_throws H.
Qed.

Lemma findEOCDR_Throw (view : DataView) (e : error) :
  findEOCDR view = Throw e ->
  e = RangeError \/ e = Error "No end of central directory record found".
Proof.
  unfold findEOCDR. cbv zeta.
  destruct (byteLength view - 4 <? 0).
  - destruct (getUint32 view (byteLength view - 4 - 1)) eqn:Hc; simpl;
      intros H; injection H as <-; [now left |].
    left. now apply getUint_Throw in Hc.
  - induction (Z.to_nat (byteLength view - 4)) as [| n IH]; simpl.
    + intros H. injection H as <-. now right.
    + destruct (getUint32 view (Z.of_nat n)) as [SIG |] eqn:Hc; simpl.
      * destruct (SIG =? HEADER_EOCDR); [discriminate | exact IH].
      * intros H. injection H as <-. left. now apply getUint_Throw in Hc.
Qed.

(** A turn of the loop throws "UNKNOWN" only on a signature that is not the
    Central Directory's; its other failures are reads out of bounds. *)
Lemma fromBlob_step_Throw (view : DataView) (blob : Blob) (offset position : Z)
  (archive : ZipArchive) (e : error) :
  fromBlob_step view blob offset position archive = Throw e ->
  e = RangeError
  \/ (e = Error "UNKNOWN"
      /\ exists SIG,
           getUint32 view (position + offset) = Ok SIG /\ SIG <> HEADER_CD).
Proof.
  unfold fromBlob_step. intros H.
  destruct (getUint32 view (position + offset)) as [SIG |] eqn:HSIG;
    cbn [JS.bind] in H.
  - destruct (SIG =? HEADER_CD) eqn:E.
    + left.
      destruct (readCD view (position + offset)) as [cd |] eqn:Hcd;
        cbn [JS.bind] in H.
      * destruct (endsWith (CD.fileName cd) "/"); [discriminate |].
        destruct (readLocal view (CD.localPosition cd)) as [local |] eqn:Hl;
          cbn [JS.bind] in H.
        -- cbv zeta in H.
           destruct (Local.compression local =? 8); discriminate.
        -- injection H as <-. now apply readLocal_Throw in Hl.
      * injection H as <-. now apply readCD_Throw in Hcd.
    + apply Z.eqb_neq in E. injection H as <-. right. eauto.
  - injection H as <-. left. now apply getUint_Throw in HSIG.
Qed.

Lemma fromBlob_loop_UNKNOWN (view : DataView) (blob : Blob)
  (offset length : Z) (fuel : nat) :
  forall position archive,
    fromBlob_loop fuel view blob offset length position archive
    = Some (Throw (Error "UNKNOWN")) ->
    exists position' SIG,
      position <= position' < length
      /\ getUint32 view (position' + offset) = Ok SIG
      /\ SIG <> HEADER_CD.
Proof.
  induction fuel as [| fuel IH]; intros position archive H;
    simpl in H; destruct (position <? length) eqn:E; try discriminate.
  apply Z.ltb_lt in E.
  destruct (fromBlob_step view blob offset position archive)
    as [[position1 archive1] | e] eqn:Hstep.
  - apply fromBlob_step_Ok in Hstep.
    destruct Hstep as (_ & cd & Hcd & -> & _).
    apply readCD_size in Hcd.
    destruct (IH _ _ H) as (position' & SIG & Hpos & HSIG & Hne).
    exists position', SIG. repeat split; try assumption; lia.
  - injection H as ->.
    apply fromBlob_step_Throw in Hstep.
    destruct Hstep as [Hr | (_ & SIG & HSIG & Hne)]; [discriminate |].
    exists position, SIG. repeat split; try assumption; lia.
Qed.

(** [fuel] turns are enough once [fuel] covers what is left of the region:
    every turn consumes a record of 46 bytes at least. *)
Lemma fromBlob_loop_terminates (view : DataView) (blob : Blob)
  (offset length : Z) (fuel : nat) :
  forall position archive,
    length - position <= Z.of_nat fuel ->
    fromBlob_loop fuel view blob offset length position archive <> None.
Proof.
  induction fuel as [| fuel IH]; intros position archive Hfuel; simpl.
  - replace (position <? length) with false
      by (symmetry; apply Z.ltb_ge; lia).
    discriminate.
  - destruct (position <? length) eqn:E; [| discriminate].
    destruct (fromBlob_step view blob offset position archive)
      as [[position' archive'] | e] eqn:Hstep; [| discriminate].
    apply fromBlob_step_Ok in Hstep.
    destruct Hstep as (_ & cd & Hcd & -> & _).
    apply readCD_size in Hcd. apply IH. lia.
Qed.

(** [fromBlob] always comes to an end. *)
Lemma fromBlob_terminates (blob : Blob) : fromBlob blob <> None.
Proof.
  unfold fromBlob. cbv zeta.
  destruct (findEOCDR blob); [| discriminate].
  destruct (readEOCDR blob a) as [EOCDR |]; [| discriminate].
  apply fromBlob_loop_terminates.
  pose proof (Z2Nat.id (EOCDR.CDLength EOCDR)). lia.
Qed.

Lemma fromBlob_loop_decodable (view : DataView) (blob : Blob)
  (offset length : Z) (fuel : nat) :
  forall position archive archive',
    fromBlob_loop fuel view blob offset length position archive
    = Some (Ok archive') ->
    exists cds,
      Region.decodable view offset length position cds
      /\ Forall (Region.locatable view) cds.
Proof.
  induction fuel as [| fuel IH]; intros position archive archive' H;
    simpl in H; destruct (position <? length) eqn:E; try discriminate.
  - apply Z.ltb_ge in E. exists []. split; [now constructor | constructor].
  - apply Z.ltb_lt in E.
    destruct (fromBlob_step view blob offset position archive)
      as [[position' archive1] | e] eqn:Hstep; [| discriminate].
    apply fromBlob_step_Ok in Hstep.
    destruct Hstep as (HSIG & cd & Hcd & -> & Hcase).
    destruct (IH _ _ _ H) as (cds & Hcds & Hloc).
    exists (cd :: cds). split.
    + now apply Region.decodable_record.
    + constructor; [| exact Hloc].
      unfold Region.locatable.
      destruct Hcase as [[Hdir _] | [_ (local & Hlocal & _)]].
      * intros Hfile. rewrite Hdir in Hfile. discriminate.
      * eauto.
  - apply Z.ltb_ge in E. exists []. split; [now constructor | constructor].
Qed.

Lemma decodable_fromBlob_loop (view : DataView) (blob : Blob)
  (offset length position : Z) (cds : list CD.t) :
  Region.decodable view offset length position cds ->
  Forall (Region.locatable view) cds ->
  forall fuel archive,
    length - position <= Z.of_nat fuel ->
    exists archive',
      fromBlob_loop fuel view blob offset length position archive
      = Some (Ok archive').
Proof.
  induction 1 as [position Hend | position cd rest Hlt HSIG Hcd Hrest IH];
    intros Hloc fuel archive Hfuel.
  - destruct fuel; simpl;
      (replace (position <? length) with false
         by (symmetry; apply Z.ltb_ge; lia)); eauto.
  - destruct fuel as [| fuel]; [lia |]. simpl.
    replace (position <? length) with true by (symmetry; apply Z.ltb_lt; lia).
    inversion Hloc as [| ? ? Hcdloc Hrestloc]; subst.
    destruct (fromBlob_step_complete view blob offset position archive cd
                HSIG Hcd Hcdloc) as [archive1 ->].
    apply IH; [exact Hrestloc |].
    apply readCD_size in Hcd. lia.
Qed.

(** C9, as the code has it.  [fromBlob] returns an archive exactly when an
    EOCDR is found and read and the region [[CDOffset, CDOffset + CDLength)]
    can be walked from record to record, each one carrying the Central
    Directory signature and, unless it names a folder, pointing to a Local
    header that can be read; [totalEntries] takes no part in it.  And it
    throws "UNKNOWN" only when a position of that region holds another
    signature. *)
Theorem fromBlob_succeeds_iff_decodable (blob : Blob) :
  ((exists archive, fromBlob blob = Some (Ok archive))
   <-> exists EOCDRPosition EOCDR cds,
         findEOCDR blob = Ok EOCDRPosition
         /\ readEOCDR blob EOCDRPosition = Ok EOCDR
         /\ Region.decodable blob (EOCDR.CDOffset EOCDR)
              (EOCDR.CDLength EOCDR) 0 cds
         /\ Forall (Region.locatable blob) cds)
  /\ (fromBlob blob = Some (Throw (Error "UNKNOWN")) ->
      exists EOCDRPosition EOCDR position SIG,
        findEOCDR blob = Ok EOCDRPosition
        /\ readEOCDR blob EOCDRPosition = Ok EOCDR
        /\ 0 <= position < EOCDR.CDLength EOCDR
        /\ getUint32 blob (position + EOCDR.CDOffset EOCDR) = Ok SIG
        /\ SIG <> HEADER_CD).
Proof.
  unfold fromBlob. cbv zeta. split; [split |].
  - intros [archive H].
    destruct (findEOCDR blob) as [p |] eqn:Hp; [| discriminate].
    destruct (readEOCDR blob p) as [EOCDR |] eqn:HEOCDR; [| discriminate].
    apply fromBlob_loop_decodable in H. destruct H as (cds & Hcds & Hloc).
    exists p, EOCDR, cds. repeat split; try reflexivity; assumption.
  - intros (p & EOCDR & cds & -> & -> & Hcds & Hloc).
    apply (decodable_fromBlob_loop _ _ _ _ _ _ Hcds Hloc).
    pose proof (Z2Nat.id (EOCDR.CDLength EOCDR)). lia.
  - intros H.
    destruct (findEOCDR blob) as [p | e] eqn:Hp.
    + destruct (readEOCDR blob p) as [EOCDR | e] eqn:HEOCDR.
      * apply fromBlob_loop_UNKNOWN in H.
        destruct H as (position & SIG & Hpos & HSIG & Hne).
        exists p, EOCDR, position, SIG.
        repeat split; try reflexivity; try assumption; lia.
      * injection H as ->. apply readEOCDR_Throw in HEOCDR. discriminate.
    + injection H as ->. apply findEOCDR_Throw in Hp.
      destruct Hp as [Hp | Hp]; discriminate.
Qed.

Lemma fromBlob_loop_fold (view : DataView) (blob : Blob)
  (offset length : Z) (fuel : nat) :
  forall position archive archive',
    fromBlob_loop fuel view blob offset length position archive
    = Some (Ok archive') ->
    exists cds,
      Region.decodable view offset length position cds
      /\ entries archive'
         = fold_left (Region.file_record view blob) cds (entries archive).
Proof.
  induction fuel as [| fuel IH]; intros position archive archive' H;
    simpl in H; destruct (position <? length) eqn:E; try discriminate.
  - apply Z.ltb_ge in E. injection H as <-.
    exists []. split; [now constructor | reflexivity].
  - apply Z.ltb_lt in E.
    destruct (fromBlob_step view blob offset position archive)
      as [[position' archive1] | e] eqn:Hstep; [| discriminate].
    apply fromBlob_step_Ok in Hstep.
    destruct Hstep as (HSIG & cd & Hcd & -> & Hcase).
    destruct (IH _ _ _ H) as (cds & Hcds & Hfold).
    exists (cd :: cds). split; [now apply Region.decodable_record |].
    rewrite Hfold. cbn [fold_left]. f_equal.
    unfold Region.file_record.
    destruct Hcase as [[-> ->] | [-> (local & -> & ->)]]; reflexivity.
  - apply Z.ltb_ge in E. injection H as <-.
    exists []. split; [now constructor | reflexivity].
Qed.

(** An entry found after records have been filed was there before, or was
    set by one of them: a record that does not name a folder and whose
    Local header was read. *)
Lemma fold_file_record_get (view : DataView) (blob : Blob) (cds : list CD.t) :
  forall (m : Map ZipEntry) (name : string) (entry : ZipEntry),
    Map_get (fold_left (Region.file_record view blob) cds m) name = Some entry ->
    Map_get m name = Some entry
    \/ exists before cd after local,
         cds = before ++ cd :: after
         /\ endsWith (CD.fileName cd) "/" = false
         /\ readLocal view (CD.localPosition cd) = Ok local
         /\ name = Local.fileName local
         /\ entry
            = new_ZipEntry
                (Blob_slice blob (Local.dataLocation local)
                   (Local.dataLocation local + Local.compressedSize local))
                (Local.compression local =? 8).
Proof.
  induction cds as [| cd0 rest IH]; intros m name entry H; cbn [fold_left] in H;
    [now left |].
  apply IH in H.
  destruct H as [H | (before & cd & after & local & -> & Hfile & Hlocal & Hrest)].
  - unfold Region.file_record in H.
    destruct (endsWith (CD.fileName cd0) "/") eqn:Hdir; [now left |].
    destruct (readLocal view (CD.localPosition cd0)) as [local |] eqn:Hlocal;
      [| now left].
    apply Map_get_set_inv in H. destruct H as [[-> ->] | H]; [| now left].
    right. exists [], cd0, rest, local. auto.
  - right. exists (cd0 :: before), cd, after, local. auto.
Qed.

(** A record of a walk stands where the records before it end, inside the
    region, under the Central Directory signature. *)
Lemma decodable_split (view : DataView) (offset length : Z)
  (before : list CD.t) (cd : CD.t) (after : list CD.t) :
  forall position,
    Region.decodable view offset length position (before ++ cd :: after) ->
    0 <= position ->
    position <= position + Region.span before < length
    /\ getUint32 view (position + Region.span before + offset) = Ok HEADER_CD
    /\ readCD view (position + Region.span before + offset) = Ok cd.
Proof.
  induction before as [| cd0 before IH]; intros position H Hpos;
    inversion H as [| ? ? ? Hlt HSIG Hcd Hrest]; subst.
  - cbn [Region.span fold_right]. rewrite Z.add_0_r.
    repeat split; try assumption; lia.
  - apply readCD_size in Hcd.
    destruct (IH _ Hrest ltac:(lia)) as (Hin & HSIG' & Hcd').
    change (Region.span (cd0 :: before))
      with (CD.size cd0 + Region.span before).
    rewrite Z.add_assoc. repeat split; try assumption; lia.
Qed.

(** C6, as the code has it.  Every entry of a parsed archive comes from a
    Central Directory record of the walk that [fromBlob] makes through the
    region [[CDOffset, CDOffset + CDLength)] of the EOCDR it found: a record
    that stands where the records before it end, inside the region, under
    the Central Directory signature, and that does not name a folder.  The
    record is used only to find the Local header at its [localPosition]:
    the entry is filed under the Local header's file name, it is marked
    compressed exactly when the Local header's compression method is 8, and
    its backing bytes are the slice of the input that starts at the Local
    header's data offset ([localPosition + 30 + nameLength + fieldLength])
    and has the Local header's compressed size for length, cut at the end
    of the input. *)
Theorem fromBlob_entries_follow_local_header (blob : Blob)
  (archive : ZipArchive) (name : string) (entry : ZipEntry) :
  fromBlob blob = Some (Ok archive) ->
  get archive name = Some entry ->
  exists EOCDRPosition EOCDR before cd after local,
    findEOCDR blob = Ok EOCDRPosition
    /\ readEOCDR blob EOCDRPosition = Ok EOCDR
    /\ Region.decodable blob (EOCDR.CDOffset EOCDR) (EOCDR.CDLength EOCDR)
         0 (before ++ cd :: after)
    /\ 0 <= Region.span before < EOCDR.CDLength EOCDR
    /\ getUint32 blob (Region.span before + EOCDR.CDOffset EOCDR)
       = Ok HEADER_CD
    /\ readCD blob (Region.span before + EOCDR.CDOffset EOCDR) = Ok cd
    /\ endsWith (CD.fileName cd) "/" = false
    /\ readLocal blob (CD.localPosition cd) = Ok local
    /\ name = Local.fileName local
    /\ compressed entry = (Local.compression local =? 8)
    /\ Local.dataLocation local
       = CD.localPosition cd + 30
         + Local.nameLength local + Local.fieldLength local
    /\ Zip.blob entry
       = Blob_slice blob (Local.dataLocation local)
           (Local.dataLocation local + Local.compressedSize local).
Proof.
  unfold fromBlob, get. cbv zeta. intros H Hget.
  destruct (findEOCDR blob) as [p |] eqn:Hp; [| discriminate].
  destruct (readEOCDR blob p) as [EOCDR |] eqn:HE; [| discriminate].
  apply fromBlob_loop_fold in H. destruct H as (cds & Hcds & Hfold).
  rewrite Hfold in Hget. apply fold_file_record_get in Hget.
  destruct Hget
    as [Hnone | (before & cd & after & local & -> & Hfile & Hlocal & -> & ->)];
    [discriminate Hnone |].
  destruct (decodable_split _ _ _ _ _ _ _ Hcds ltac:(lia))
    as (Hin & HSIG & Hcd).
  exists p, EOCDR, before, cd, after, local.
  repeat split; try assumption; try reflexivity; try lia.
  now apply (readLocal_dataLocation blob).
Qed.

End ParseFacts.

Lemma fromBlob_entries_follow_local_header_witness :
  let entry := {| Zip.blob := []; Zip.compressed := true |} in
  let archive := {| Zip.entries := [("a", entry)] |} in
  Zip.fromBlob (codec := Samples.utf8) Samples.streamed_zip = Some (JS.Ok archive)
  /\ Zip.get archive "a" = Some entry
  /\ exists EOCDRPosition EOCDR before cd after local,
       Zip.findEOCDR Samples.streamed_zip = JS.Ok EOCDRPosition
       /\ Zip.readEOCDR (codec := Samples.utf8) Samples.streamed_zip
            EOCDRPosition
          = JS.Ok EOCDR
       /\ Region.decodable (codec := Samples.utf8) Samples.streamed_zip
            (Zip.EOCDR.CDOffset EOCDR) (Zip.EOCDR.CDLength EOCDR)
            0 (before ++ cd :: after)
       /\ 0 <= Region.span before < Zip.EOCDR.CDLength EOCDR
       /\ JS.getUint32 Samples.streamed_zip
            (Region.span before + Zip.EOCDR.CDOffset EOCDR)
          = JS.Ok Zip.HEADER_CD
       /\ Zip.readCD (codec := Samples.utf8) Samples.streamed_zip
            (Region.span before + Zip.EOCDR.CDOffset EOCDR)
          = JS.Ok cd
       /\ JS.endsWith (Zip.CD.fileName cd) "/" = false
       /\ Zip.readLocal (codec := Samples.utf8) Samples.streamed_zip
            (Zip.CD.localPosition cd) = JS.Ok local
       /\ "a" = Zip.Local.fileName local
       /\ Zip.compressed entry = (Zip.Local.compression local =? 8)
       /\ Zip.Local.dataLocation local
          = Zip.CD.localPosition cd + 30
            + Zip.Local.nameLength local + Zip.Local.fieldLength local
       /\ Zip.blob entry
          = JS.Blob_slice Samples.streamed_zip (Zip.Local.dataLocation local)
              (Zip.Local.dataLocation local + Zip.Local.compressedSize local).
Proof.
  intros entry archive.
  split; [vm_compute; reflexivity |]. split; [reflexivity |].
  apply (fromBlob_entries_follow_local_header (codec := Samples.utf8)
           Samples.streamed_zip archive "a" entry).
  - vm_compute. reflexivity.
  - reflexivity.
Defined.

(** C6, as stated, fails: in an archive written by a streaming writer the
    Central Directory record of "a" declares a compressed size of 4 and the
    4 bytes are there, from 31 to 35, but the Local header declares 0, and
    the parsed entry has no backing bytes. *)
Lemma fromBlob_streamed_zip_takes_local_size :
  exists archive entry cd,
    Zip.fromBlob (codec := Samples.utf8) Samples.streamed_zip
    = Some (JS.Ok archive)
    /\ Zip.get archive "a" = Some entry
    /\ Zip.readCD (codec := Samples.utf8) Samples.streamed_zip 51 = JS.Ok cd
    /\ Zip.CD.fileName cd = "a"
    /\ Zip.CD.localPosition cd = 0
    /\ Zip.CD.compressedSize cd = 4
    /\ JS.Blob_slice Samples.streamed_zip 31 (31 + Zip.CD.compressedSize cd)
       = Samples.hi_deflated
    /\ Zip.blob entry = []
    /\ JS.Blob_size (Zip.blob entry) <> Zip.CD.compressedSize cd.
Proof.
  eexists _, _, _.
  split; [vm_compute; reflexivity |].
  split; [vm_compute; reflexivity |].
  split; [vm_compute; reflexivity |].
  vm_compute. repeat split. discriminate.
Qed.

Section RegionFacts.
Import JS Zip.

Context {codec : TextCodec}.


End RegionFacts.

(** C9, as stated, fails: the region [[96, 96 + 141)] holds three decodable
    records, the EOCDR declares [totalEntries = 5], and [fromBlob] returns
    the archive of the three members. *)
Lemma fromBlob_miscounted_zip_succeeds :
  exists EOCDRPosition EOCDR cds archive,
    Zip.findEOCDR Samples.miscounted_zip = JS.Ok EOCDRPosition
    /\ Zip.readEOCDR (codec := Samples.utf8) Samples.miscounted_zip
         EOCDRPosition = JS.Ok EOCDR
    /\ Zip.EOCDR.totalEntries EOCDR = 5
    /\ Region.decodable (codec := Samples.utf8) Samples.miscounted_zip
         (Zip.EOCDR.CDOffset EOCDR) (Zip.EOCDR.CDLength EOCDR) 0 cds
    /\ List.length cds = 3%nat
    /\ Zip.fromBlob (codec := Samples.utf8) Samples.miscounted_zip
       = Some (JS.Ok archive)
    /\ map fst (Zip.entries archive) = ["a"; "b"; "c"].
Proof.
  eexists _, _, [_; _; _], _.
  split; [vm_compute; reflexivity |].
  split; [vm_compute; reflexivity |].
  split; [reflexivity |].
  split.
  - cbn [Zip.EOCDR.CDOffset Zip.EOCDR.CDLength].
    repeat (eapply Region.decodable_record;
            [cbn; lia | lazy; reflexivity | lazy; reflexivity | ]).
    apply Region.decodable_end. cbn. lia.
  - split; [reflexivity |].
    split; [vm_compute; reflexivity | reflexivity].
Qed.

(* ================================================================= *)
(** ** Buffers as sequences of fields *)

Section BufferFacts.
Import JS.

Lemma Z_of_byte_of_Z (v : Z) : Z_of_byte (byte_of_Z v) = v mod 256.
Proof.
  unfold Z_of_byte, byte_of_Z.
  assert (Hland : Z.land v 255 = v mod 256)
    by (change 255 with (Z.ones 8); rewrite Z.land_ones by lia; reflexivity).
  pose proof (Z.mod_pos_bound v 256 ltac:(lia)) as Hb.
  destruct (Byte.of_N (Z.to_N (Z.land v 255))) as [b |] eqn:E.
  - apply Byte.to_of_N in E. rewrite E, Hland. lia.
  - apply Byte.of_N_None_iff in E. rewrite Hland in E. lia.
Qed.

Lemma length_le_bytes (n : nat) (v : Z) : List.length (le_bytes n v) = n.
Proof.
  revert v. induction n as [| n IH]; intros v; simpl; [reflexivity |].
  now rewrite IH.
Qed.

(** Writing then reading a number keeps it modulo [2^(8n)]. *)
Lemma le_value_le_bytes (n : nat) (v : Z) :
  le_value (le_bytes n v) = v mod 2 ^ (8 * Z.of_nat n).
Proof.
  revert v. induction n as [| n IH]; intros v.
  - simpl. now rewrite Z.mod_1_r.
  - cbn [le_bytes le_value]. rewrite IH, Z_of_byte_of_Z.
    rewrite Z.shiftr_div_pow2 by lia.
    replace (8 * Z.of_nat (S n)) with (8 + 8 * Z.of_nat n) by lia.
    rewrite Z.pow_add_r by lia.
    change (2 ^ 8) with 256.
    rewrite Z.rem_mul_r by lia. reflexivity.
Qed.

Lemma le_bytes_app (n m : nat) (v : Z) :
  le_bytes (n + m) v
  = le_bytes n v ++ le_bytes m (Z.shiftr v (8 * Z.of_nat n)).
Proof.
  revert v. induction n as [| n IH]; intros v.
  - simpl. now rewrite Z.shiftr_0_r.
  - cbn [Nat.add le_bytes app]. rewrite IH. f_equal. f_equal. f_equal.
    rewrite Z.shiftr_shiftr by lia. f_equal. lia.
Qed.

Lemma byteLength_app (a b : list byte) :
  byteLength (a ++ b) = byteLength a + byteLength b.
Proof. unfold byteLength. rewrite length_app. lia. Qed.

Lemma byteLength_le_bytes (n : nat) (v : Z) :
  byteLength (le_bytes n v) = Z.of_nat n.
Proof. unfold byteLength. now rewrite length_le_bytes. Qed.

Lemma byteLength_nonneg (a : list byte) : 0 <= byteLength a.
Proof. unfold byteLength. lia. Qed.

(** Replacing the middle of a buffer. *)
Lemma splice_middle (a b c bs : list byte) (offset : Z) :
  offset = byteLength a -> List.length b = List.length bs ->
  splice (a ++ b ++ c) offset bs = a ++ bs ++ c.
Proof.
  intros -> Hlen. unfold splice, byteLength. rewrite Nat2Z.id.
  rewrite firstn_app, firstn_all, Nat.sub_diag, firstn_0, app_nil_r.
  f_equal. f_equal.
  rewrite skipn_app.
  replace (skipn (List.length a + List.length bs) a) with (@nil byte)
    by (symmetry; apply skipn_all2; lia).
  replace (List.length a + List.length bs - List.length a)%nat
    with (List.length b) by lia.
  simpl. rewrite skipn_app, skipn_all, Nat.sub_diag. reflexivity.
Qed.

Lemma in_bounds_middle (a b c : list byte) (offset n : Z) :
  offset = byteLength a -> n = byteLength b ->
  in_bounds (a ++ b ++ c) offset n = true.
Proof.
  intros -> ->. unfold in_bounds. rewrite !byteLength_app.
  pose proof (byteLength_nonneg a). pose proof (byteLength_nonneg b).
  pose proof (byteLength_nonneg c).
  rewrite !andb_true_iff, !Z.leb_le. lia.
Qed.

Lemma setUint_middle (n : nat) (a b c : list byte) (offset v : Z) :
  offset = byteLength a -> List.length b = n ->
  setUint n (a ++ b ++ c) offset v = Ok (a ++ le_bytes n v ++ c).
Proof.
  intros Ho Hb. unfold setUint.
  rewrite in_bounds_middle by (unfold byteLength; lia || assumption).
  rewrite splice_middle; [reflexivity | assumption |].
  now rewrite length_le_bytes.
Qed.

Lemma Uint8Array_set_middle (a b c source : list byte) (offset : Z) :
  offset = byteLength a -> List.length b = List.length source ->
  Uint8Array_set (a ++ b ++ c) source offset = Ok (a ++ source ++ c).
Proof.
  intros Ho Hb. unfold Uint8Array_set.
  rewrite in_bounds_middle by (unfold byteLength; lia || assumption).
  now rewrite splice_middle.
Qed.

(** Reading past a field, and reading a field. *)
Lemma in_bounds_skip (a rest : list byte) (offset n : Z) :
  byteLength a <= offset ->
  in_bounds (a ++ rest) offset n = in_bounds rest (offset - byteLength a) n.
Proof.
  intros H. unfold in_bounds. rewrite byteLength_app.
  pose proof (byteLength_nonneg a).
  destruct (0 <=? n) eqn:En;
    [| now rewrite !andb_false_r].
  rewrite !andb_true_r.
  apply eq_true_iff_eq. rewrite !andb_true_iff, !Z.leb_le. lia.
Qed.

Lemma bytes_at_skip (a rest : list byte) (offset n : Z) :
  byteLength a <= offset ->
  bytes_at (a ++ rest) offset n = bytes_at rest (offset - byteLength a) n.
Proof.
  intros H. unfold bytes_at, byteLength in *. rewrite skipn_app.
  replace (skipn (Z.to_nat offset) a) with (@nil byte)
    by (symmetry; apply skipn_all2; lia).
  simpl. do 2 f_equal. lia.
Qed.

Lemma bytes_at_here (b rest : list byte) (offset n : Z) :
  offset = 0 -> n = byteLength b -> bytes_at (b ++ rest) offset n = b.
Proof.
  intros -> ->. unfold bytes_at, byteLength. rewrite Nat2Z.id. simpl.
  now rewrite firstn_app, firstn_all, Nat.sub_diag, firstn_0, app_nil_r.
Qed.

Lemma getUint_skip (n : nat) (a rest : list byte) (offset : Z) :
  byteLength a <= offset ->
  getUint n (a ++ rest) offset = getUint n rest (offset - byteLength a).
Proof.
  intros H. unfold getUint.
  now rewrite in_bounds_skip, bytes_at_skip by assumption.
Qed.

Lemma getUint_here (n : nat) (b rest : list byte) (offset : Z) :
  offset = 0 -> List.length b = n ->
  getUint n (b ++ rest) offset = Ok (le_value b).
Proof.
  intros Ho Hb. unfold getUint.
  rewrite (in_bounds_middle [] b rest);
    [| exact Ho | unfold byteLength; lia].
  rewrite bytes_at_here by (try unfold byteLength; lia). reflexivity.
Qed.

Lemma new_Uint8Array_skip (a rest : list byte) (offset n : Z) :
  byteLength a <= offset ->
  new_Uint8Array (a ++ rest) offset n
  = new_Uint8Array rest (offset - byteLength a) n.
Proof.
  intros H. unfold new_Uint8Array.
  now rewrite in_bounds_skip, bytes_at_skip by assumption.
Qed.

Lemma new_Uint8Array_here (b rest : list byte) (offset n : Z) :
  offset = 0 -> n = byteLength b ->
  new_Uint8Array (b ++ rest) offset n = Ok b.
Proof.
  intros Ho Hb. unfold new_Uint8Array.
  rewrite (in_bounds_middle [] b rest); [| exact Ho | exact Hb].
  now rewrite bytes_at_here.
Qed.

Lemma new_Uint8Array_all (b : list byte) (offset n : Z) :
  offset = 0 -> n = byteLength b -> new_Uint8Array b offset n = Ok b.
Proof.
  intros Ho Hn. rewrite <- (app_nil_r b) at 1.
  now apply new_Uint8Array_here.
Qed.

Lemma le_value_u16 (v : Z) :
  0 <= v < 65536 -> le_value (le_bytes 2 v) = v.
Proof. intros H. rewrite le_value_le_bytes. now apply Z.mod_small. Qed.

Lemma le_value_u32 (v : Z) : le_value (le_bytes 4 v) = v mod 4294967296.
Proof. now rewrite le_value_le_bytes. Qed.

Lemma le_value_u16_mod (v : Z) : le_value (le_bytes 2 v) = v mod 65536.
Proof. now rewrite le_value_le_bytes. Qed.

Lemma le_value_app (a b : list byte) :
  le_value (a ++ b) = le_value a + 2 ^ (8 * byteLength a) * le_value b.
Proof.
  induction a as [| x a IH]; cbn [app le_value].
  - change (byteLength []) with 0. change (2 ^ (8 * 0)) with 1. lia.
  - rewrite IH. unfold byteLength. cbn [List.length].
    replace (8 * Z.of_nat (S (List.length a)))
      with (8 + 8 * Z.of_nat (List.length a)) by lia.
    rewrite Z.pow_add_r by lia. change (2 ^ 8) with 256. ring.
Qed.

(** The two halves of a 32-bit field. *)
Lemma le_bytes_halves (v : Z) :
  le_bytes 4 v = le_bytes 2 v ++ le_bytes 2 (v / 65536).
Proof.
  change 4%nat with (2 + 2)%nat. rewrite le_bytes_app.
  rewrite Z.shiftr_div_pow2 by lia. reflexivity.
Qed.

Lemma getUint32_halves (b1 b2 rest : list byte) (offset : Z) :
  offset = 0 -> List.length b1 = 2%nat -> List.length b2 = 2%nat ->
  getUint 4 (b1 ++ b2 ++ rest) offset
  = Ok (le_value b1 + 65536 * le_value b2).
Proof.
  intros Ho H1 H2. rewrite app_assoc.
  rewrite getUint_here by (assumption || (rewrite length_app; lia)).
  rewrite le_value_app. unfold byteLength. rewrite H1. reflexivity.
Qed.

Lemma ToInt32_mod (a n : Z) :
  0 <= n <= 32 -> ToInt32 a mod 2 ^ n = a mod 2 ^ n.
Proof.
  intros Hn. unfold ToInt32.
  pose proof (Z.div_mod (a + 2 ^ 31) (2 ^ 32) ltac:(lia)) as Hdm.
  replace ((a + 2 ^ 31) mod 2 ^ 32 - 2 ^ 31)
    with (a + (- ((a + 2 ^ 31) / 2 ^ 32) * 2 ^ (32 - n)) * 2 ^ n).
  - now rewrite Z_mod_plus_full.
  - rewrite <- Z.mul_assoc, <- Z.pow_add_r by lia.
    replace (32 - n + n) with 32 by lia. lia.
Qed.

Lemma bitand_FFFF (a : Z) : bitand a 0xFFFF mod 65536 = a mod 65536.
Proof.
  unfold bitand. change (ToInt32 65535) with (Z.ones 16).
  rewrite Z.land_ones by lia. rewrite Z.mod_mod by lia.
  apply (ToInt32_mod a 16). lia.
Qed.

Lemma bitand_FFFFFFFF (a : Z) :
  bitand a 0xFFFFFFFF mod 4294967296 = a mod 4294967296.
Proof.
  unfold bitand. change (ToInt32 4294967295) with (-1).
  rewrite Z.land_m1_r. apply (ToInt32_mod a 32). lia.
Qed.

Lemma byteLength_nil : byteLength (@nil byte) = 0.
Proof. reflexivity. Qed.

Lemma byteLength_repeat (b : byte) (k : nat) :
  byteLength (repeat b k) = Z.of_nat k.
Proof. unfold byteLength. now rewrite repeat_length. Qed.

(** Writing at the end of what has been written into a fresh buffer. *)
Lemma setUint_zeros (n : nat) (W : list byte) (k : nat) (offset v : Z) :
  offset = byteLength W -> (n <= k)%nat ->
  setUint n (W ++ repeat x00 k) offset v
  = Ok ((W ++ le_bytes n v) ++ repeat x00 (k - n)).
Proof.
  intros Ho Hk. replace k with (n + (k - n))%nat at 1 by lia.
  rewrite repeat_app, setUint_middle by (assumption || apply repeat_length).
  now rewrite app_assoc.
Qed.

Lemma Uint8Array_set_zeros (W source : list byte) (k : nat) (offset : Z) :
  offset = byteLength W -> (List.length source <= k)%nat ->
  Uint8Array_set (W ++ repeat x00 k) source offset
  = Ok ((W ++ source) ++ repeat x00 (k - List.length source)).
Proof.
  intros Ho Hk.
  replace k with (List.length source + (k - List.length source))%nat at 1
    by lia.
  rewrite repeat_app, Uint8Array_set_middle
    by (assumption || apply repeat_length).
  now rewrite app_assoc.
Qed.

End BufferFacts.

(** The length of what has been written. *)
Ltac written :=
  repeat rewrite byteLength_app;
  repeat rewrite byteLength_le_bytes;
  repeat rewrite byteLength_repeat;
  repeat rewrite byteLength_nil;
  try unfold JS.byteLength;
  lia.

(** One write of an encoder that fills a fresh buffer from left to right. *)
Ltac write_field :=
  first [ rewrite setUint_zeros by written
        | rewrite Uint8Array_set_zeros by written ];
  cbn [JS.bind].

(** One read of a decoder in a buffer given as a sequence of fields. *)
Ltac read_field :=
  first [ repeat rewrite getUint_skip by written;
          rewrite getUint_here by first [written | apply length_le_bytes]
        | repeat rewrite new_Uint8Array_skip by written;
          first [ rewrite new_Uint8Array_here by written
                | rewrite new_Uint8Array_all by written ] ];
  cbn [JS.bind].

(** The end of such an encoder: the buffer is full. *)
Ltac buffer_full :=
  match goal with
  | |- JS.Ok (?W ++ repeat x00 ?k) = _ =>
      replace k with 0%nat by (cbn [Region.bytes_of List.length]; lia)
  end;
  cbn [repeat Region.bytes_of]; unfold JS.byteLength; cbn [List.length];
  repeat rewrite app_nil_r; repeat rewrite <- app_assoc; cbn [app];
  reflexivity.

Section LocalHeaderFacts.
Import JS Zip.

Context {codec : TextCodec}.

Lemma generateLocalHeader_bytes (this : ZipEntry) (filename : string)
  (extra : option (list byte)) :
  generateLocalHeader this filename extra
  = Ok (le_bytes 4 HEADER_LOCAL
        ++ le_bytes 2 0 ++ le_bytes 2 0
        ++ le_bytes 2 (if compressed this then 8 else 0)
        ++ le_bytes 2 0 ++ le_bytes 2 0
        ++ le_bytes 4 0 ++ le_bytes 4 0 ++ le_bytes 4 0
        ++ le_bytes 2 (byteLength (encodeString filename))
        ++ le_bytes 2 (byteLength (Region.bytes_of extra))
        ++ encodeString filename ++ Region.bytes_of extra).
Proof.
  unfold generateLocalHeader, setUint16, setUint32, new_ArrayBuffer.
  cbv zeta.
  set (name := encodeString filename).
  replace (Z.to_nat
             (30 + Z.of_nat (List.length name)
              + match extra with
                | Some x => Z.of_nat (List.length x)
                | None => 0
                end))
    with (30 + List.length name + List.length (Region.bytes_of extra))%nat
    by (destruct extra; cbn [Region.bytes_of List.length]; lia).
  rewrite <- (app_nil_l (repeat x00 _)).
  do 12 write_field.
  destruct extra as [x |]; cbn [Region.bytes_of]; [write_field |];
    cbn [JS.bind]; buffer_full.
Qed.
(** X1.  When the encoded file name and the extra field are shorter than
    65536 bytes, [readLocal] at position 0 of the header written by
    [generateLocalHeader] returns the signature, the compression method
    (8 for a compressed entry, 0 otherwise), the lengths, the decoded file
    name and the extra field that were written, zero for the version, the
    flag, the time, the date, the CRC and both sizes, and a data offset of
    30 plus the two lengths. *)
Theorem readLocal_generateLocalHeader (this : ZipEntry) (filename : string)
  (extra : option (list byte)) :
  byteLength (encodeString filename) < 65536 ->
  byteLength (Region.bytes_of extra) < 65536 ->
  (view <- generateLocalHeader this filename extra ;; readLocal view 0)
  = Ok {| Local.type := "LOCAL";
          Local.signature := HEADER_LOCAL;
          Local.version := 0;
          Local.flag := 0;
          Local.compression := if compressed this then 8 else 0;
          Local.time := 0;
          Local.date := 0;
          Local.crc := 0;
          Local.compressedSize := 0;
          Local.uncompressedSize := 0;
          Local.nameLength := byteLength (encodeString filename);
          Local.fieldLength := byteLength (Region.bytes_of extra);
          Local.fileName := TextDecoder_decode (encodeString filename);
          Local.field := Region.bytes_of extra;
          Local.dataLocation :=
            30 + byteLength (encodeString filename)
            + byteLength (Region.bytes_of extra) |}.
Proof.
  intros Hn Hm. rewrite generateLocalHeader_bytes. cbn [JS.bind].
  pose proof (byteLength_nonneg (encodeString filename)) as Hn0.
  pose proof (byteLength_nonneg (Region.bytes_of extra)) as Hm0.
  unfold readLocal, decodeString, getUint16, getUint32. cbv zeta.
  do 11 read_field.
  rewrite !le_value_u16 by lia.
  do 2 read_field.
  f_equal. f_equal; try reflexivity; try lia.
  now destruct (compressed this).
Qed.

End LocalHeaderFacts.

Section EntryEncoderFacts.
Import JS ZipEntry.

Context {codec : TextCodec}.

Lemma generate_cd_bytes (this : t) (filename : string) (local_position : Z) :
  generate_cd this filename local_position
  = Ok (le_bytes 4 HEADER_CD
        ++ le_bytes 2 ZIP_VERSION ++ le_bytes 2 ZIP_VERSION ++ le_bytes 2 0
        ++ le_bytes 2 (compression this)
        ++ le_bytes 2 (snd (dos_time_from_date (modified this)))
        ++ le_bytes 2 (fst (dos_time_from_date (modified this)))
        ++ le_bytes 4 (crc this)
        ++ le_bytes 4 (compressed_size this)
        ++ le_bytes 4 (uncompressed_size this)
        ++ le_bytes 2 (byteLength (encode_utf8_string filename))
        ++ le_bytes 2 (byteLength (Region.bytes_of (extra this)))
        ++ le_bytes 2 (byteLength (Region.bytes_of (comment this)))
        ++ le_bytes 2 0
        ++ le_bytes 2 (bitand (internal_file_attr this) 0xFFFF)
        ++ le_bytes 4 (bitand (external_file_attr this) 0xFFFFFFFF)
        ++ le_bytes 4 local_position
        ++ encode_utf8_string filename
        ++ Region.bytes_of (extra this) ++ Region.bytes_of (comment this)).
Proof.
  unfold generate_cd, setUint16, setUint32, new_ArrayBuffer.
  cbv zeta.
  set (name := encode_utf8_string filename).
  destruct (dos_time_from_date (modified this)) as [date time].
  cbn [fst snd].
  replace (Z.to_nat
             (46
              + match extra this with
                | Some x => Z.of_nat (List.length x)
                | None => 0
                end
              + Z.of_nat (List.length name)
              + match comment this with
                | Some c => Z.of_nat (List.length c)
                | None => 0
                end))
    with (46 + List.length name + List.length (Region.bytes_of (extra this))
          + List.length (Region.bytes_of (comment this)))%nat
    by (destruct (extra this), (comment this); cbn [Region.bytes_of List.length];
        lia).
  rewrite <- (app_nil_l (repeat x00 _)).
  do 18 write_field.
  destruct (extra this) as [x |]; cbn [Region.bytes_of]; [write_field |];
    cbn [JS.bind];
    (destruct (comment this) as [c |]; cbn [Region.bytes_of]; [write_field |];
     cbn [JS.bind]; buffer_full).
Qed.

(** X3.  When the encoded file name, the extra field and the comment are
    shorter than 65536 bytes, [readCD] at position 0 of the record written
    by [generate_cd] returns every field the entry holds: version 20 twice,
    flag 0, the compression method, the DOS time and date, the CRC, the
    compressed and uncompressed sizes, the three lengths, disk 0, the two
    attributes and the local position (16-bit fields modulo 65536, 32-bit
    fields modulo 2^32), the decoded file name, the extra field, the decoded
    comment, and a record size of 46 plus the three lengths. *)
Theorem readCD_generate_cd (this : t) (filename : string)
  (local_position : Z) :
  byteLength (encode_utf8_string filename) < 65536 ->
  byteLength (Region.bytes_of (extra this)) < 65536 ->
  byteLength (Region.bytes_of (comment this)) < 65536 ->
  (buffer <- generate_cd this filename local_position ;; Zip.readCD buffer 0)
  = Ok {| Zip.CD.type := "CD";
          Zip.CD.signature := HEADER_CD;
          Zip.CD.version := ZIP_VERSION;
          Zip.CD.minVersion := ZIP_VERSION;
          Zip.CD.flag := 0;
          Zip.CD.compression := compression this mod 65536;
          Zip.CD.time := snd (dos_time_from_date (modified this)) mod 65536;
          Zip.CD.date := fst (dos_time_from_date (modified this)) mod 65536;
          Zip.CD.crc := crc this mod 4294967296;
          Zip.CD.compressedSize := compressed_size this mod 4294967296;
          Zip.CD.uncompressedSize := uncompressed_size this mod 4294967296;
          Zip.CD.nameLength := byteLength (encode_utf8_string filename);
          Zip.CD.fieldLength := byteLength (Region.bytes_of (extra this));
          Zip.CD.commentLength := byteLength (Region.bytes_of (comment this));
          Zip.CD.disk := 0;
          Zip.CD.internal := internal_file_attr this mod 65536;
          Zip.CD.external := external_file_attr this mod 4294967296;
          Zip.CD.localPosition := local_position mod 4294967296;
          Zip.CD.fileName :=
            TextDecoder_decode (encode_utf8_string filename);
          Zip.CD.field := Region.bytes_of (extra this);
          Zip.CD.comment := TextDecoder_decode (Region.bytes_of (comment this));
          Zip.CD.size :=
            46 + byteLength (encode_utf8_string filename)
            + byteLength (Region.bytes_of (extra this))
            + byteLength (Region.bytes_of (comment this)) |}.
Proof.
  intros Hn Hm Hk. rewrite generate_cd_bytes. cbn [JS.bind].
  pose proof (byteLength_nonneg (encode_utf8_string filename)) as Hn0.
  pose proof (byteLength_nonneg (Region.bytes_of (extra this))) as Hm0.
  pose proof (byteLength_nonneg (Region.bytes_of (comment this))) as Hk0.
  unfold Zip.readCD, Zip.decodeString, getUint16, getUint32. cbv zeta.
  do 17 read_field.
  rewrite !(le_value_u16 (byteLength _)) by lia.
  do 3 read_field.
  rewrite !le_value_u32, !le_value_u16_mod, bitand_FFFF, bitand_FFFFFFFF.
  f_equal. f_equal; try reflexivity; lia.
Qed.

Lemma generate_local_bytes (this : t) (filename : string) :
  generate_local this filename
  = Ok (le_bytes 4 HEADER_LOCAL
        ++ le_bytes 2 ZIP_VERSION ++ le_bytes 2 0
        ++ le_bytes 2 (compression this)
        ++ le_bytes 2 (snd (dos_time_from_date (modified this)))
        ++ le_bytes 2 (fst (dos_time_from_date (modified this)))
        ++ le_bytes 2 0
        ++ le_bytes 2 (crc this) ++ le_bytes 2 (crc this / 65536)
        ++ le_bytes 2 (compressed_size this)
        ++ le_bytes 2 (compressed_size this / 65536)
        ++ le_bytes 2 (uncompressed_size this)
        ++ le_bytes 2 (byteLength (encode_utf8_string filename))
        ++ le_bytes 2 (byteLength (Region.bytes_of (extra this)))
        ++ encode_utf8_string filename
        ++ Region.bytes_of (extra this)).
Proof.
  unfold generate_local, setUint16, setUint32, new_ArrayBuffer.
  cbv zeta.
  set (name := encode_utf8_string filename).
  destruct (dos_time_from_date (modified this)) as [date time].
  cbn [fst snd].
  replace (Z.to_nat
             (30 + Z.of_nat (List.length name)
              + match extra this with
                | Some x => Z.of_nat (List.length x)
                | None => 0
                end))
    with (14 + (2 + (14 + List.length name
                     + List.length (Region.bytes_of (extra this)))))%nat
    by (destruct (extra this); cbn [Region.bytes_of List.length]; lia).
  rewrite <- (app_nil_l (repeat x00 _)).
  do 6 write_field.
  (* bytes 14 and 15 are left as they are *)
  replace (14 + (2 + (14 + List.length name
                      + List.length (Region.bytes_of (extra this)))) - 4 - 2 - 2
           - 2 - 2 - 2)%nat
    with (2 + (14 + List.length name
               + List.length (Region.bytes_of (extra this))))%nat by lia.
  rewrite (repeat_app x00 2), (app_assoc _ (repeat x00 2)).
  change (repeat x00 2) with (le_bytes 2 0).
  do 3 write_field.
  (* the name length goes over the upper half of the uncompressed size *)
  rewrite (le_bytes_halves (uncompressed_size this)).
  rewrite (app_assoc _ (le_bytes 2 (uncompressed_size this))).
  rewrite <- (app_assoc _ (le_bytes 2 (uncompressed_size this / 65536))).
  rewrite setUint_middle by first [written | apply length_le_bytes].
  cbn [JS.bind]. rewrite app_assoc.
  do 2 write_field.
  destruct (extra this) as [x |]; cbn [Region.bytes_of]; [write_field |];
    cbn [JS.bind];
    rewrite !le_bytes_halves; buffer_full.
Qed.

(** X4.  When the encoded file name and the extra field are shorter than
    65536 bytes, [readLocal] at position 0 of the header written by
    [generate_local] returns the signature, version 20, flag 0, the
    compression method, the DOS time and date, the two lengths, the decoded
    file name, the extra field and a data offset of 30 plus the two
    lengths; its CRC is the low half of the entry's CRC moved to the high
    half, its compressed size is the high half of the CRC followed by the
    low half of the compressed size, and its uncompressed size is the high
    half of the compressed size followed by the low half of the
    uncompressed size. *)
Theorem readLocal_generate_local (this : t) (filename : string) :
  byteLength (encode_utf8_string filename) < 65536 ->
  byteLength (Region.bytes_of (extra this)) < 65536 ->
  (buffer <- generate_local this filename ;; Zip.readLocal buffer 0)
  = Ok {| Zip.Local.type := "LOCAL";
          Zip.Local.signature := HEADER_LOCAL;
          Zip.Local.version := ZIP_VERSION;
          Zip.Local.flag := 0;
          Zip.Local.compression := compression this mod 65536;
          Zip.Local.time :=
            snd (dos_time_from_date (modified this)) mod 65536;
          Zip.Local.date :=
            fst (dos_time_from_date (modified this)) mod 65536;
          Zip.Local.crc := 65536 * (crc this mod 65536);
          Zip.Local.compressedSize :=
            (crc this / 65536) mod 65536
            + 65536 * (compressed_size this mod 65536);
          Zip.Local.uncompressedSize :=
            (compressed_size this / 65536) mod 65536
            + 65536 * (uncompressed_size this mod 65536);
          Zip.Local.nameLength := byteLength (encode_utf8_string filename);
          Zip.Local.fieldLength := byteLength (Region.bytes_of (extra this));
          Zip.Local.fileName :=
            TextDecoder_decode (encode_utf8_string filename);
          Zip.Local.field := Region.bytes_of (extra this);
          Zip.Local.dataLocation :=
            30 + byteLength (encode_utf8_string filename)
            + byteLength (Region.bytes_of (extra this)) |}.
Proof.
  intros Hn Hm. rewrite generate_local_bytes. cbn [JS.bind].
  pose proof (byteLength_nonneg (encode_utf8_string filename)) as Hn0.
  pose proof (byteLength_nonneg (Region.bytes_of (extra this))) as Hm0.
  unfold Zip.readLocal, Zip.decodeString, getUint16, getUint32. cbv zeta.
  do 6 read_field.
  do 3 (repeat rewrite getUint_skip by written;
        rewrite getUint32_halves
          by first [written | apply length_le_bytes];
        cbn [JS.bind]).
  do 2 read_field.
  rewrite !(le_value_u16 (byteLength _)) by lia.
  do 2 read_field.
  rewrite !le_value_u32, !le_value_u16_mod.
  f_equal; try (f_equal; try reflexivity; lia).
Qed.

End EntryEncoderFacts.

(* ================================================================= *)
(** ** What the readers accept *)

Section ReaderFacts.
Import JS Zip.

Context {codec : TextCodec}.

Lemma in_bounds_iff (view : DataView) (offset n : Z) :
  in_bounds view offset n = true
  <-> 0 <= offset /\ 0 <= n /\ offset + n <= byteLength view.
Proof.
  unfold in_bounds. rewrite !andb_true_iff, !Z.leb_le. tauto.
Qed.

Lemma getUint_Ok_bounds (n : nat) (view : DataView) (offset v : Z) :
  getUint n view offset = Ok v ->
  0 <= offset /\ offset + Z.of_nat n <= byteLength view.
Proof.
  unfold getUint.
  destruct (in_bounds view offset (Z.of_nat n)) eqn:E; [| discriminate].
  apply in_bounds_iff in E. lia.
Qed.

Lemma new_Uint8Array_Ok_bounds (view : DataView) (offset n : Z)
  (bs : list byte) :
  new_Uint8Array view offset n = Ok bs ->
  0 <= offset /\ 0 <= n /\ offset + n <= byteLength view.
Proof.
  unfold new_Uint8Array.
  destruct (in_bounds view offset n) eqn:E; [| discriminate].
  now apply in_bounds_iff in E.
Qed.

Lemma new_Uint8Array_in_bounds (view : DataView) (offset n : Z) :
  0 <= offset -> 0 <= n -> offset + n <= byteLength view ->
  exists bs, new_Uint8Array view offset n = Ok bs.
Proof.
  intros H0 H1 H2. unfold new_Uint8Array.
  replace (in_bounds view offset n) with true
    by (symmetry; apply in_bounds_iff; lia).
  eauto.
Qed.

Lemma decodeString_Ok_bounds (view : DataView) (offset n : Z) (str : string) :
  decodeString view offset n = Ok str ->
  0 <= offset /\ 0 <= n /\ offset + n <= byteLength view.
Proof.
  unfold decodeString. intros H. apply bind_Ok in H.
  destruct H as (bs & H & _). now apply new_Uint8Array_Ok_bounds in H.
Qed.

Lemma decodeString_in_bounds (view : DataView) (offset n : Z) :
  0 <= offset -> 0 <= n -> offset + n <= byteLength view ->
  exists str, decodeString view offset n = Ok str.
Proof.
  intros H0 H1 H2. unfold decodeString.
  destruct (new_Uint8Array_in_bounds view offset n H0 H1 H2) as [bs ->].
  simpl. eauto.
Qed.

End ReaderFacts.

(** A read of a reader whose fields all fit: the lengths [Hn], [Hm], [Hk]
    are known, the other numbers are whatever the view holds. *)
Ltac fitting_read view :=
  match goal with
  | H : JS.getUint ?k view ?off' = JS.Ok _
    |- context [JS.bind (JS.getUint ?k view ?off) _] =>
      replace off with off' by lia; rewrite H
  | |- context [JS.bind (JS.getUint ?k view ?off) _] =>
      let v := fresh "v" in
      let Hv := fresh "Hv" in
      destruct (getUint_in_bounds k view off) as [v Hv]; [lia | lia |];
      rewrite Hv; clear Hv
  | |- context [JS.bind (Zip.decodeString view ?off ?n) _] =>
      let v := fresh "v" in
      let Hv := fresh "Hv" in
      destruct (decodeString_in_bounds view off n) as [v Hv];
      [lia | lia | lia |]; rewrite Hv; clear Hv
  | |- context [JS.bind (JS.new_Uint8Array view ?off ?n) _] =>
      let v := fresh "v" in
      let Hv := fresh "Hv" in
      destruct (new_Uint8Array_in_bounds view off n) as [v Hv];
      [lia | lia | lia |]; rewrite Hv; clear Hv
  end;
  cbn [JS.bind].

Section ReaderBounds.
Import JS Zip.

Context {codec : TextCodec}.

Lemma readLocal_fits (view : DataView) (position n m : Z) :
  0 <= position ->
  getUint 2 view (position + 26) = Ok n ->
  getUint 2 view (position + 28) = Ok m ->
  position + 30 + n + m <= byteLength view ->
  exists local, readLocal view position = Ok local.
Proof.
  intros Hp Hn Hm Hfit.
  pose proof (getUint_nonneg _ _ _ _ Hn). pose proof (getUint_nonneg _ _ _ _ Hm).
  unfold readLocal, getUint16, getUint32. cbv zeta.
  repeat fitting_read view. eauto.
Qed.

Lemma readLocal_Ok (view : DataView) (position : Z) (local : Local.t) :
  readLocal view position = Ok local ->
  0 <= position
  /\ getUint 2 view (position + 26) = Ok (Local.nameLength local)
  /\ getUint 2 view (position + 28) = Ok (Local.fieldLength local)
  /\ Local.dataLocation local
     = position + 30 + Local.nameLength local + Local.fieldLength local
  /\ Local.dataLocation local <= byteLength view.
Proof.
  unfold readLocal, getUint16, getUint32. cbv zeta. intros H. bind_inv H.
  injection H as <-.
  cbn [Local.dataLocation Local.nameLength Local.fieldLength].
  repeat match goal with
         | Hg : getUint _ view ?off = Ok _ |- _ =>
             lazymatch off with
             | position => apply getUint_Ok_bounds in Hg
             | _ => fail
             end
         end.
  repeat match goal with
         | Hg : new_Uint8Array _ _ _ = Ok _ |- _ =>
             apply new_Uint8Array_Ok_bounds in Hg
         end.
  repeat split; try lia.
  - match goal with
    | Hg : getUint 2 view ?off = Ok ?a |- getUint 2 view _ = Ok ?a =>
        replace (position + 26) with off by lia; exact Hg
    end.
  - match goal with
    | Hg : getUint 2 view ?off = Ok ?a |- getUint 2 view _ = Ok ?a =>
        replace (position + 28) with off by lia; exact Hg
    end.
Qed.

(** X6.  [readLocal] checks bounds and nothing else.  It returns a header
    exactly when the position is not negative and the 30 fixed bytes, the
    file name and the extra field fit in the view, with the two lengths read
    at 26 and 28; the data offset it reports is the position plus 30 plus
    the two lengths, and lies within the view.  The payload need not fit and
    the signature is not looked at.  Otherwise it throws a [RangeError]. *)
Theorem readLocal_bounds (view : DataView) (position : Z) :
  match readLocal view position with
  | Ok local =>
      0 <= position
      /\ getUint16 view (position + 26) = Ok (Local.nameLength local)
      /\ getUint16 view (position + 28) = Ok (Local.fieldLength local)
      /\ Local.dataLocation local
         = position + 30 + Local.nameLength local + Local.fieldLength local
      /\ Local.dataLocation local <= byteLength view
  | Throw e =>
      e = RangeError
      /\ (position < 0
          \/ byteLength view < position + 30
          \/ exists n m,
               getUint16 view (position + 26) = Ok n
               /\ getUint16 view (position + 28) = Ok m
               /\ byteLength view < position + 30 + n + m)
  end.
Proof.
  destruct (readLocal view position) as [local | e] eqn:H.
  - now apply readLocal_Ok.
  - split; [now apply readLocal_Throw in H |].
    destruct (Z_lt_dec position 0) as [| Hp]; [now left |].
    destruct (Z_lt_dec (byteLength view) (position + 30)) as [| Hl];
      [now right; left |].
    right. right.
    destruct (getUint_in_bounds 2 view (position + 26)) as [n Hn];
      [lia | lia |].
    destruct (getUint_in_bounds 2 view (position + 28)) as [m Hm];
      [lia | lia |].
    exists n, m. split; [exact Hn |]. split; [exact Hm |].
    destruct (Z_lt_dec (byteLength view) (position + 30 + n + m)) as [| Hfit];
      [assumption |].
    destruct (readLocal_fits view position n m) as [local Hok];
      try assumption; try lia.
    rewrite Hok in H. discriminate.
Qed.

Lemma readCD_fits (view : DataView) (position n m k : Z) :
  0 <= position ->
  getUint 2 view (position + 28) = Ok n ->
  getUint 2 view (position + 30) = Ok m ->
  getUint 2 view (position + 32) = Ok k ->
  position + 46 + n + m + k <= byteLength view ->
  exists cd, readCD view position = Ok cd.
Proof.
  intros Hp Hn Hm Hk Hfit.
  pose proof (getUint_nonneg _ _ _ _ Hn). pose proof (getUint_nonneg _ _ _ _ Hm).
  pose proof (getUint_nonneg _ _ _ _ Hk).
  unfold readCD, getUint16, getUint32. cbv zeta.
  repeat fitting_read view. eauto.
Qed.

Lemma readCD_Ok (view : DataView) (position : Z) (cd : CD.t) :
  readCD view position = Ok cd ->
  0 <= position
  /\ getUint 2 view (position + 28) = Ok (CD.nameLength cd)
  /\ getUint 2 view (position + 30) = Ok (CD.fieldLength cd)
  /\ getUint 2 view (position + 32) = Ok (CD.commentLength cd)
  /\ CD.size cd
     = 46 + CD.nameLength cd + CD.fieldLength cd + CD.commentLength cd
  /\ position + CD.size cd <= byteLength view.
Proof.
  unfold readCD, getUint16, getUint32. cbv zeta.
  intros H. bind_inv H. injection H as <-.
  cbn [CD.size CD.nameLength CD.fieldLength CD.commentLength].
  repeat match goal with
         | Hg : getUint _ view ?off = Ok _ |- _ =>
             lazymatch off with
             | position => apply getUint_Ok_bounds in Hg
             | _ => fail
             end
         end.
  repeat match goal with
         | Hg : decodeString _ _ _ = Ok _ |- _ =>
             apply decodeString_Ok_bounds in Hg
         end.
  repeat split; try lia;
    match goal with
    | Hg : getUint 2 view ?off = Ok ?a |- getUint 2 view ?off' = Ok ?a =>
        replace off' with off by lia; exact Hg
    end.
Qed.

(** X7.  [readCD] returns a record exactly when the position is not
    negative and the 46 fixed bytes, the file name, the extra field and the
    comment fit in the view, with the three lengths read at 28, 30 and 32;
    the size it reports is 46 plus the three lengths.  Otherwise it throws a
    [RangeError]. *)
Theorem readCD_bounds (view : DataView) (position : Z) :
  match readCD view position with
  | Ok cd =>
      0 <= position
      /\ getUint16 view (position + 28) = Ok (CD.nameLength cd)
      /\ getUint16 view (position + 30) = Ok (CD.fieldLength cd)
      /\ getUint16 view (position + 32) = Ok (CD.commentLength cd)
      /\ CD.size cd
         = 46 + CD.nameLength cd + CD.fieldLength cd + CD.commentLength cd
      /\ position + CD.size cd <= byteLength view
  | Throw e =>
      e = RangeError
      /\ (position < 0
          \/ byteLength view < position + 46
          \/ exists n m k,
               getUint16 view (position + 28) = Ok n
               /\ getUint16 view (position + 30) = Ok m
               /\ getUint16 view (position + 32) = Ok k
               /\ byteLength view < position + 46 + n + m + k)
  end.
Proof.
  destruct (readCD view position) as [cd | e] eqn:H.
  - now apply readCD_Ok.
  - split; [now apply readCD_Throw in H |].
    destruct (Z_lt_dec position 0) as [| Hp]; [now left |].
    destruct (Z_lt_dec (byteLength view) (position + 46)) as [| Hl];
      [now right; left |].
    right. right.
    destruct (getUint_in_bounds 2 view (position + 28)) as [n Hn];
      [lia | lia |].
    destruct (getUint_in_bounds 2 view (position + 30)) as [m Hm];
      [lia | lia |].
    destruct (getUint_in_bounds 2 view (position + 32)) as [k Hk];
      [lia | lia |].
    exists n, m, k. repeat (split; [assumption |]).
    destruct (Z_lt_dec (byteLength view) (position + 46 + n + m + k))
      as [| Hfit]; [assumption |].
    destruct (readCD_fits view position n m k) as [cd Hok];
      try assumption; try lia.
    rewrite Hok in H. discriminate.
Qed.

Lemma readEOCDR_fits (view : DataView) (position k : Z) :
  0 <= position ->
  getUint 2 view (position + 20) = Ok k ->
  position + 22 + k <= byteLength view ->
  exists EOCDR, readEOCDR view position = Ok EOCDR.
Proof.
  intros Hp Hk Hfit.
  pose proof (getUint_nonneg _ _ _ _ Hk).
  unfold readEOCDR, getUint16, getUint32. cbv zeta.
  repeat fitting_read view. eauto.
Qed.

Lemma readEOCDR_Ok (view : DataView) (position : Z) (EOCDR : EOCDR.t) :
  readEOCDR view position = Ok EOCDR ->
  0 <= position
  /\ getUint 4 view position = Ok (EOCDR.signature EOCDR)
  /\ getUint 2 view (position + 10) = Ok (EOCDR.totalEntries EOCDR)
  /\ getUint 4 view (position + 12) = Ok (EOCDR.CDLength EOCDR)
  /\ getUint 4 view (position + 16) = Ok (EOCDR.CDOffset EOCDR)
  /\ getUint 2 view (position + 20) = Ok (EOCDR.commentLength EOCDR)
  /\ position + 22 + EOCDR.commentLength EOCDR <= byteLength view.
Proof.
  unfold readEOCDR, getUint16, getUint32. cbv zeta.
  intros H. bind_inv H. injection H as <-.
  cbn [EOCDR.signature EOCDR.totalEntries EOCDR.CDLength EOCDR.CDOffset
       EOCDR.commentLength].
  match goal with
  | Hg : getUint 4 view position = Ok _ |- _ =>
      pose proof (getUint_Ok_bounds _ _ _ _ Hg)
  end.
  repeat match goal with
         | Hg : decodeString _ _ _ = Ok _ |- _ =>
             apply decodeString_Ok_bounds in Hg
         end.
  repeat split; try lia; try assumption;
    match goal with
    | Hg : getUint ?n view ?off = Ok ?a |- getUint ?n view ?off' = Ok ?a =>
        replace off' with off by lia; exact Hg
    end.
Qed.

(** X8.  [readEOCDR] returns a record exactly when the position is not
    negative and the 22 fixed bytes and the comment fit in the view, with
    the comment length read at 20; the signature, [totalEntries],
    [CDLength] and [CDOffset] it reports are the numbers at 0, 10, 12 and
    16.  Otherwise it throws a [RangeError]. *)
Theorem readEOCDR_bounds (view : DataView) (position : Z) :
  match readEOCDR view position with
  | Ok EOCDR =>
      0 <= position
      /\ getUint32 view position = Ok (EOCDR.signature EOCDR)
      /\ getUint16 view (position + 10) = Ok (EOCDR.totalEntries EOCDR)
      /\ getUint32 view (position + 12) = Ok (EOCDR.CDLength EOCDR)
      /\ getUint32 view (position + 16) = Ok (EOCDR.CDOffset EOCDR)
      /\ getUint16 view (position + 20) = Ok (EOCDR.commentLength EOCDR)
      /\ position + 22 + EOCDR.commentLength EOCDR <= byteLength view
  | Throw e =>
      e = RangeError
      /\ (position < 0
          \/ byteLength view < position + 22
          \/ exists k,
               getUint16 view (position + 20) = Ok k
               /\ byteLength view < position + 22 + k)
  end.
Proof.
  destruct (readEOCDR view position) as [EOCDR | e] eqn:H.
  - now apply readEOCDR_Ok.
  - split; [now apply readEOCDR_Throw in H |].
    destruct (Z_lt_dec position 0) as [| Hp]; [now left |].
    destruct (Z_lt_dec (byteLength view) (position + 22)) as [| Hl];
      [now right; left |].
    right. right.
    destruct (getUint_in_bounds 2 view (position + 20)) as [k Hk];
      [lia | lia |].
    exists k. split; [assumption |].
    destruct (Z_lt_dec (byteLength view) (position + 22 + k))
      as [| Hfit]; [assumption |].
    destruct (readEOCDR_fits view position k) as [EOCDR Hok];
      try assumption; try lia.
    rewrite Hok in H. discriminate.
Qed.

End ReaderBounds.

(* ================================================================= *)
(** ** The archive a buffer parses to *)

Section ParsedArchiveFacts.
Import JS Zip.

Context {codec : TextCodec}.

Lemma findEOCDR_short (view : DataView) :
  byteLength view < 4 -> findEOCDR view = Throw RangeError.
Proof.
  intros H. unfold findEOCDR. cbv zeta.
  replace (byteLength view - 4 <? 0) with true
    by (symmetry; apply Z.ltb_lt; lia).
  unfold getUint32. now rewrite getUint_negative by lia.
Qed.

Lemma findEOCDR_cases (view : DataView) :
  4 <= byteLength view ->
  match findEOCDR view with
  | Ok p =>
      0 <= p <= byteLength view - 5 /\ getUint32 view p = Ok HEADER_EOCDR
  | Throw e =>
      e = Error "No end of central directory record found"
      /\ (forall q, 0 <= q <= byteLength view - 5 ->
                    getUint32 view q <> Ok HEADER_EOCDR)
  end.
Proof.
  intros H. unfold findEOCDR. cbv zeta.
  replace (byteLength view - 4 <? 0) with false
    by (symmetry; apply Z.ltb_ge; lia).
  pose proof (findEOCDR_loop_scan view (Z.to_nat (byteLength view - 4))
                ltac:(lia)) as Hscan.
  rewrite Z2Nat.id in Hscan by lia.
  destruct (findEOCDR_loop view (Z.to_nat (byteLength view - 4))) as [p | e].
  - destruct Hscan as (Hp & Hat & _). split; [lia | exact Hat].
  - destruct Hscan as (He & Hnone). split; [exact He |].
    intros q Hq. apply Hnone. lia.
Qed.

Lemma fromBlob_loop_Throw (view : DataView) (blob : Blob)
  (offset length : Z) (fuel : nat) :
  forall position archive e,
    fromBlob_loop fuel view blob offset length position archive
    = Some (Throw e) ->
    e = RangeError \/ e = Error "UNKNOWN".
Proof.
  induction fuel as [| fuel IH]; intros position archive e H;
    simpl in H; destruct (position <? length); try discriminate.
  destruct (fromBlob_step view blob offset position archive)
    as [[position' archive'] | e'] eqn:Hstep.
  - exact (IH _ _ _ H).
  - injection H as ->. apply fromBlob_step_Throw in Hstep.
    destruct Hstep as [-> | [-> _]]; auto.
Qed.

(** X9.  On the bytes that [ReadBlob] has handed over, [fromBlob] fails
    with "No end of central directory record found" exactly when there are
    at least 4 of them and none of the positions from 0 to [length - 5]
    holds the EOCDR signature; fewer than 4 bytes, none included, fail with
    a [RangeError]. *)
Theorem fromBlob_failures (blob : Blob) :
  (fromBlob blob
   = Some (Throw (Error "No end of central directory record found"))
   <-> 4 <= byteLength blob
       /\ (forall q, 0 <= q <= byteLength blob - 5 ->
                     getUint32 blob q <> Ok HEADER_EOCDR))
  /\ (byteLength blob < 4 -> fromBlob blob = Some (Throw RangeError)).
Proof.
  split.
  - split.
    + intros H. unfold fromBlob in H. cbv zeta in H.
      destruct (Z_lt_dec (byteLength blob) 4) as [Hs | Hl].
      * rewrite (findEOCDR_short blob Hs) in H. discriminate.
      * pose proof (findEOCDR_cases blob ltac:(lia)) as Hc.
        destruct (findEOCDR blob) as [p | e0].
        -- destruct (readEOCDR blob p) as [EOCDR | e1] eqn:HE.
           ++ apply fromBlob_loop_Throw in H.
              destruct H as [H | H]; discriminate.
           ++ injection H as ->. apply readEOCDR_Throw in HE. discriminate.
        -- destruct Hc as (_ & Hnone). split; [lia | exact Hnone].
    + intros (Hl & Hnone). unfold fromBlob. cbv zeta.
      pose proof (findEOCDR_cases blob Hl) as Hc.
      destruct (findEOCDR blob) as [p | e0].
      * destruct Hc as (Hp & Hat). exfalso. exact (Hnone p Hp Hat).
      * destruct Hc as (-> & _). reflexivity.
  - intros Hs. unfold fromBlob. cbv zeta.
    now rewrite (findEOCDR_short blob Hs).
Qed.

(** X10.  The archive [fromBlob] returns is what filing the records of the
    Central Directory region gives, one after the other from an empty index:
    a folder record changes nothing, and any other record sets the entry
    under its Local header's file name, so that a later record replaces an
    earlier entry of the same name. *)
Theorem fromBlob_archive_is_fold (blob : Blob) (archive : ZipArchive) :
  fromBlob blob = Some (Ok archive) ->
  exists EOCDRPosition EOCDR cds,
    findEOCDR blob = Ok EOCDRPosition
    /\ readEOCDR blob EOCDRPosition = Ok EOCDR
    /\ Region.decodable blob (EOCDR.CDOffset EOCDR) (EOCDR.CDLength EOCDR)
         0 cds
    /\ entries archive = fold_left (Region.file_record blob blob) cds [].
Proof.
  unfold fromBlob. cbv zeta. intros H.
  destruct (findEOCDR blob) as [p |] eqn:Hp; [| discriminate].
  destruct (readEOCDR blob p) as [EOCDR |] eqn:HE; [| discriminate].
  apply fromBlob_loop_fold in H. destruct H as (cds & Hcds & Hfold).
  exists p, EOCDR, cds. repeat split; try reflexivity; assumption.
Qed.



Lemma Map_set_keys {V : Type} (m : Map V) (key : string) (v : V) :
  map fst (Map_set m key v)
  = if existsb (String.eqb key) (map fst m) then map fst m
    else map fst m ++ [key].
Proof.
  induction m as [| [k v0] rest IH]; cbn [Map_set map fst existsb app].
  - reflexivity.
  - rewrite (String.eqb_sym key k).
    destruct (String.eqb k key) eqn:E; cbn [map fst orb].
    + reflexivity.
    + rewrite IH. now destruct (existsb (String.eqb key) (map fst rest)).
Qed.

Lemma existsb_eqb_In (key : string) (keys : list string) :
  existsb (String.eqb key) keys = false -> ~ In key keys.
Proof.
  intros H Hin.
  assert (Ht : existsb (String.eqb key) keys = true)
    by (apply existsb_exists; exists key; split;
        [exact Hin | apply String.eqb_refl]).
  congruence.
Qed.

Lemma Map_set_NoDup {V : Type} (m : Map V) (key : string) (v : V) :
  NoDup (map fst m) -> NoDup (map fst (Map_set m key v)).
Proof.
  intros H. rewrite Map_set_keys.
  destruct (existsb (String.eqb key) (map fst m)) eqn:E; [exact H |].
  apply existsb_eqb_In in E.
  apply NoDup_app; [exact H | repeat constructor; intros [] | ].
  intros x Hx [<- | []]. contradiction.
Qed.

Lemma Map_set_length {V : Type} (m : Map V) (key : string) (v : V) :
  (List.length (Map_set m key v) <= S (List.length m))%nat.
Proof.
  induction m as [| [k v0] rest IH]; cbn [Map_set List.length]; [lia |].
  destruct (String.eqb k key); cbn [List.length]; lia.
Qed.

Lemma file_record_step (view : DataView) (blob : Blob) (m : Map ZipEntry)
  (cd : CD.t) :
  NoDup (map fst m) ->
  NoDup (map fst (Region.file_record view blob m cd))
  /\ (List.length (Region.file_record view blob m cd)
      <= List.length m + (if Region.is_file cd then 1 else 0))%nat.
Proof.
  intros Hm. unfold Region.file_record, Region.is_file.
  destruct (endsWith (CD.fileName cd) "/"); cbn [negb]; [split; [easy | lia] |].
  destruct (readLocal view (CD.localPosition cd)) as [local |];
    [| split; [easy | lia]].
  split; [now apply Map_set_NoDup |].
  match goal with
  | |- context [Map_set m ?k ?v] => pose proof (Map_set_length m k v)
  end.
  lia.
Qed.

Lemma fold_file_record (view : DataView) (blob : Blob) (cds : list CD.t) :
  forall m,
    NoDup (map fst m) ->
    NoDup (map fst (fold_left (Region.file_record view blob) cds m))
    /\ (List.length (fold_left (Region.file_record view blob) cds m)
        <= List.length m + List.length (filter Region.is_file cds))%nat.
Proof.
  induction cds as [| cd cds IH]; intros m Hm; cbn [fold_left filter].
  - split; [exact Hm | lia].
  - destruct (file_record_step view blob m cd Hm) as [Hn Hl].
    destruct (IH _ Hn) as [Hn' Hl'].
    split; [exact Hn' |].
    destruct (Region.is_file cd); cbn [List.length]; lia.
Qed.

(** X12.  The names of a parsed archive are pairwise distinct, and the
    archive has at most as many entries as the region has records that do
    not name a folder. *)
Theorem fromBlob_names_distinct (blob : Blob) (archive : ZipArchive) :
  fromBlob blob = Some (Ok archive) ->
  NoDup (map fst (entries archive))
  /\ exists EOCDRPosition EOCDR cds,
       findEOCDR blob = Ok EOCDRPosition
       /\ readEOCDR blob EOCDRPosition = Ok EOCDR
       /\ Region.decodable blob (EOCDR.CDOffset EOCDR)
            (EOCDR.CDLength EOCDR) 0 cds
       /\ (List.length (entries archive)
           <= List.length (filter Region.is_file cds))%nat.
Proof.
  unfold fromBlob. cbv zeta. intros H.
  destruct (findEOCDR blob) as [p |] eqn:Hp; [| discriminate].
  destruct (readEOCDR blob p) as [EOCDR |] eqn:HE; [| discriminate].
  apply fromBlob_loop_fold in H. destruct H as (cds & Hcds & Hfold).
  destruct (fold_file_record blob blob cds [] ltac:(constructor))
    as [Hn Hl].
  rewrite Hfold. split; [exact Hn |].
  exists p, EOCDR, cds. repeat split; try reflexivity; assumption.
Qed.

End ParsedArchiveFacts.

(* ================================================================= *)
(** ** Lookups, the compression upgrade, failed decompression, sizes *)

Section ArchiveOperationFacts.
Import JS Zip.

Lemma Map_get_set {V : Type} (m : Map V) (key other : string) (v : V) :
  Map_get (Map_set m key v) other
  = if String.eqb key other then Some v else Map_get m other.
Proof.
  induction m as [| [k v0] rest IH]; cbn [Map_set Map_get].
  - reflexivity.
  - destruct (String.eqb k key) eqn:E; cbn [Map_get].
    + apply String.eqb_eq in E. subst k.
      now destruct (String.eqb key other).
    + destruct (String.eqb k other) eqn:E'; [| exact IH].
      apply String.eqb_eq in E'. subst other.
      rewrite String.eqb_sym, E. reflexivity.
Qed.

(** X14.  After [set(name, file)], [get] returns a fresh uncompressed
    entry for [name] and what it returned before for every other name;
    likewise after [setCompressed], with a compressed entry.  [set] keeps
    the order of the names: a name already present keeps its place, a new
    one goes last. *)
Theorem get_after_set (this : ZipArchive) (name other : string) (file : Blob) :
  get (snd (set this name file)) other
  = (if String.eqb name other then Some (new_ZipEntry file false)
     else get this other)
  /\ get (setCompressed this name file) other
     = (if String.eqb name other then Some (new_ZipEntry file true)
        else get this other)
  /\ map fst (files (snd (set this name file)))
     = (if existsb (String.eqb name) (map fst (files this))
        then map fst (files this)
        else map fst (files this) ++ [name]).
Proof.
  unfold get, set, setCompressed, files. cbn [snd entries].
  rewrite !Map_get_set, Map_set_keys. auto.
Qed.

(** X13.  [compressEntry] never compresses.  It returns the entry as it is
    when the entry is marked compressed; it fails with "Entry <name> does
    not exist" when the name is absent, and with "ZipArchive.compressBlob is
    not implemented" when the entry is not compressed. *)
Theorem compressEntry_cases (this : ZipArchive) (name : string) :
  match compressEntry this name with
  | Ok entry => get this name = Some entry /\ compressed entry = true
  | Throw e =>
      (get this name = None
       /\ e = Error (String.append "Entry "
                       (String.append name " does not exist")))
      \/ (exists entry,
            get this name = Some entry
            /\ compressed entry = false
            /\ e = Error "ZipArchive.compressBlob is not implemented")
  end.
Proof.
  unfold compressEntry. cbv zeta.
  destruct (get this name) as [entry |]; [| now left].
  destruct (compressed entry) eqn:E; cbn [negb].
  - auto.
  - right. exists entry. auto.
Qed.

End ArchiveOperationFacts.

Section CacheFailureFacts.
Import JS ZipEntry.

Variable decompress : nat -> BlobObject -> result BlobObject.

Lemma sequentially_failing (this : t) (errors : nat -> error) (N : nat) :
  compression this = 8 ->
  (forall i, decompress i (blob this) = Throw (errors i)) ->
  forall w,
    WeakMap_get (inflated_entries w) (blob this) = None ->
    sequentially decompress this N w
    = (map (fun i => Returned (Throw (errors i)))
         (seq (List.length (decompress_calls w)) N),
       {| inflated_entries := inflated_entries w;
          decompress_calls := repeat (blob this) N ++ decompress_calls w |}).
Proof.
  intros Hc Hd. unfold sequentially.
  induction N as [| N IH]; intros w Hw; cbn [repeat for_each seq map].
  - destruct w; reflexivity.
  - cbn [issue]. rewrite (get_blob_begin_uncached this Hc w Hw).
    cbn [settle]. unfold decompress_resume. rewrite Hd.
    rewrite IH by exact Hw.
    cbn [inflated_entries decompress_calls List.length].
    now rewrite repeat_app_cons.
Qed.

Lemma settle_all_failing (this : t) (errors : nat -> error) (N : nat) :
  (forall i, decompress i (blob this) = Throw (errors i)) ->
  forall k w,
    for_each (settle decompress this) (map Suspended (seq k N)) w
    = (map (fun i => Returned (Throw (errors i))) (seq k N), w).
Proof.
  intros Hd. induction N as [| N IH]; intros k w; cbn [seq map for_each];
    [reflexivity |].
  cbn [settle]. unfold decompress_resume. rewrite Hd, IH. reflexivity.
Qed.

(** X15.  When every invocation of the decompression collaborator fails on
    the blob of a DEFLATE entry that is not cached, invocation number [i]
    with [errors i], every one of [N] calls of [get_blob], awaited in turn
    or issued together, fails with the error of its own invocation; the
    collaborator is invoked [N] times and the cache is left as it was. *)
Theorem get_blob_failure_not_cached (this : t) (errors : nat -> error)
  (N : nat) (w : World) :
  compression this = 8 ->
  (forall i, decompress i (blob this) = Throw (errors i)) ->
  WeakMap_get (inflated_entries w) (blob this) = None ->
  let failed := map (fun i => Returned (Throw (errors i)))
                  (seq (List.length (decompress_calls w)) N) in
  let w' := {| inflated_entries := inflated_entries w;
               decompress_calls :=
                 repeat (blob this) N ++ decompress_calls w |} in
  sequentially decompress this N w = (failed, w')
  /\ concurrently decompress this N w = (failed, w').
Proof.
  intros Hc Hd Hw. split.
  - now apply sequentially_failing.
  - unfold concurrently. rewrite (issue_all_uncached this Hc N w Hw).
    now apply settle_all_failing.
Qed.

(** X16.  The cache is keyed by the blob object.  Once [get_blob] has
    succeeded on a DEFLATE entry, [get_blob] on any DEFLATE entry that holds
    the same blob object returns that result without invoking the
    collaborator; for an entry that holds another blob object the cache
    answers as it did before. *)
Theorem get_blob_shared_by_identity (first second : t) (w : World)
  (result : BlobObject) :
  compression first = 8 -> compression second = 8 ->
  WeakMap_get (inflated_entries w) (blob first) = None ->
  decompress (List.length (decompress_calls w)) (blob first) = Ok result ->
  let w' := snd (get_blob decompress first w) in
  (identity (blob second) = identity (blob first) ->
   get_blob decompress second w' = (Ok result, w'))
  /\ (identity (blob second) <> identity (blob first) ->
      WeakMap_get (inflated_entries w') (blob second)
      = WeakMap_get (inflated_entries w) (blob second)).
Proof.
  intros H1 H2 Hw Hd. unfold get_blob at 1.
  rewrite (get_blob_begin_uncached first H1 w Hw).
  unfold decompress_resume. rewrite Hd. cbn [snd]. split.
  - intros Hid. unfold get_blob.
    rewrite (get_blob_begin_cached second H2 _ result); [reflexivity |].
    cbn [inflated_entries]. unfold WeakMap_set. cbn [WeakMap_get].
    rewrite Hid, Nat.eqb_refl. reflexivity.
  - intros Hid. cbn [inflated_entries]. unfold WeakMap_set.
    cbn [WeakMap_get].
    replace (Nat.eqb (identity (blob first)) (identity (blob second)))
      with false; [reflexivity |].
    symmetry. apply Nat.eqb_neq. congruence.
Qed.

End CacheFailureFacts.

Section EncoderSizeFacts.
Import JS.

Context {codec : TextCodec}.

(** X2.  [generateLocalHeader] never throws: it returns 30 bytes plus the
    encoded file name and the extra field, starting with the Local header
    signature and holding the compression method (8 or 0) at 8. *)
Theorem generateLocalHeader_total (this : Zip.ZipEntry) (filename : string)
  (extra : option (list byte)) :
  exists view,
    Zip.generateLocalHeader this filename extra = Ok view
    /\ byteLength view
       = 30 + byteLength (Zip.encodeString filename)
         + byteLength (Region.bytes_of extra)
    /\ getUint32 view 0 = Ok Zip.HEADER_LOCAL
    /\ getUint16 view 8 = Ok (if Zip.compressed this then 8 else 0).
Proof.
  rewrite generateLocalHeader_bytes. eexists. split; [reflexivity |].
  unfold getUint16, getUint32. split; [| split].
  - written.
  - now read_field.
  - read_field. now destruct (Zip.compressed this).
Qed.

(** X5.  [generate_local] and [generate_cd] never throw.  The first
    returns 30 bytes plus the encoded file name and the extra field,
    starting with the Local header signature; the second returns 46 bytes
    plus the encoded file name, the extra field and the comment, starting
    with the Central Directory signature and holding the local position,
    modulo 2^32, at 42. *)
Theorem generate_local_cd_total (this : ZipEntry.t) (filename : string)
  (local_position : Z) :
  (exists buffer,
     ZipEntry.generate_local this filename = Ok buffer
     /\ byteLength buffer
        = 30 + byteLength (ZipEntry.encode_utf8_string filename)
          + byteLength (Region.bytes_of (ZipEntry.extra this))
     /\ getUint32 buffer 0 = Ok ZipEntry.HEADER_LOCAL)
  /\ (exists buffer,
        ZipEntry.generate_cd this filename local_position = Ok buffer
        /\ byteLength buffer
           = 46 + byteLength (ZipEntry.encode_utf8_string filename)
             + byteLength (Region.bytes_of (ZipEntry.extra this))
             + byteLength (Region.bytes_of (ZipEntry.comment this))
        /\ getUint32 buffer 0 = Ok ZipEntry.HEADER_CD
        /\ getUint32 buffer 42 = Ok (local_position mod 4294967296)).
Proof.
  split.
  - rewrite generate_local_bytes. eexists. split; [reflexivity |].
    unfold getUint32. split; [written | now read_field].
  - rewrite generate_cd_bytes. eexists. split; [reflexivity |].
    unfold getUint32. split; [written |]. split; [now read_field |].
    read_field. now rewrite le_value_u32.
Qed.

End EncoderSizeFacts.

(* ================================================================= *)
(** ** The theorems above at concrete inputs *)

Lemma readLocal_generateLocalHeader_witness :
  exists local,
    (view <- Zip.generateLocalHeader (codec := Samples.utf8)
               (Zip.new_ZipEntry (list_byte_of_string "hi") true)
               "hello.txt" None ;;
     Zip.readLocal (codec := Samples.utf8) view 0) = JS.Ok local
    /\ Zip.Local.fileName local = "hello.txt"
    /\ Zip.Local.compression local = 8
    /\ Zip.Local.dataLocation local = 39.
Proof.
  eexists. split.
  - apply (readLocal_generateLocalHeader (codec := Samples.utf8)
             (Zip.new_ZipEntry (list_byte_of_string "hi") true)
             "hello.txt" None); reflexivity.
  - repeat split.
Defined.

Lemma readCD_generate_cd_witness :
  exists cd,
    (buffer <- ZipEntry.generate_cd (codec := Samples.utf8)
                 Samples.annotated_entry "a.txt" 1234 ;;
     Zip.readCD (codec := Samples.utf8) buffer 0) = JS.Ok cd
    /\ Zip.CD.fileName cd = "a.txt"
    /\ Zip.CD.crc cd = Samples.hi_crc
    /\ Zip.CD.compressedSize cd = 4
    /\ Zip.CD.external cd = 0x81a40000
    /\ Zip.CD.localPosition cd = 1234
    /\ Zip.CD.comment cd = "note"
    /\ Zip.CD.size cd = 58.
Proof.
  eexists. split.
  - apply (readCD_generate_cd (codec := Samples.utf8)
             Samples.annotated_entry "a.txt" 1234); reflexivity.
  - repeat split.
Defined.

Lemma readLocal_generate_local_witness :
  exists local,
    (buffer <- ZipEntry.generate_local (codec := Samples.utf8)
                 Samples.annotated_entry "a.txt" ;;
     Zip.readLocal (codec := Samples.utf8) buffer 0) = JS.Ok local
    /\ Zip.Local.fileName local = "a.txt"
    /\ Zip.Local.compression local = 8
    /\ Zip.Local.crc local = 0x2aac0000
    /\ Zip.Local.dataLocation local = 38.
Proof.
  eexists. split.
  - apply (readLocal_generate_local (codec := Samples.utf8)
             Samples.annotated_entry "a.txt"); reflexivity.
  - repeat split.
Defined.

Lemma fromBlob_archive_is_fold_witness :
  exists EOCDRPosition EOCDR cds,
    Zip.findEOCDR Samples.miscounted_zip = JS.Ok EOCDRPosition
    /\ Zip.readEOCDR (codec := Samples.utf8) Samples.miscounted_zip
         EOCDRPosition = JS.Ok EOCDR
    /\ Region.decodable (codec := Samples.utf8) Samples.miscounted_zip
         (Zip.EOCDR.CDOffset EOCDR) (Zip.EOCDR.CDLength EOCDR) 0 cds
    /\ [("a", Zip.new_ZipEntry [JS.byte_of_Z 120] false);
        ("b", Zip.new_ZipEntry [JS.byte_of_Z 121] false);
        ("c", Zip.new_ZipEntry [JS.byte_of_Z 122] false)]
       = fold_left
           (Region.file_record (codec := Samples.utf8)
              Samples.miscounted_zip Samples.miscounted_zip)
           cds [].
Proof.
  apply (fromBlob_archive_is_fold (codec := Samples.utf8)
           Samples.miscounted_zip
           {| Zip.entries :=
                [("a", Zip.new_ZipEntry [JS.byte_of_Z 120] false);
                 ("b", Zip.new_ZipEntry [JS.byte_of_Z 121] false);
                 ("c", Zip.new_ZipEntry [JS.byte_of_Z 122] false)] |}).
  vm_compute. reflexivity.
Defined.


Lemma fromBlob_names_distinct_witness :
  NoDup ["a"; "b"; "c"]
  /\ exists EOCDRPosition EOCDR cds,
       Zip.findEOCDR Samples.miscounted_zip = JS.Ok EOCDRPosition
       /\ Zip.readEOCDR (codec := Samples.utf8) Samples.miscounted_zip
            EOCDRPosition = JS.Ok EOCDR
       /\ Region.decodable (codec := Samples.utf8) Samples.miscounted_zip
            (Zip.EOCDR.CDOffset EOCDR) (Zip.EOCDR.CDLength EOCDR) 0 cds
       /\ (3 <= List.length (filter Region.is_file cds))%nat.
Proof.
  apply (fromBlob_names_distinct (codec := Samples.utf8)
           Samples.miscounted_zip
           {| Zip.entries :=
                [("a", Zip.new_ZipEntry [JS.byte_of_Z 120] false);
                 ("b", Zip.new_ZipEntry [JS.byte_of_Z 121] false);
                 ("c", Zip.new_ZipEntry [JS.byte_of_Z 122] false)] |}).
  vm_compute. reflexivity.
Defined.

Lemma get_blob_failure_not_cached_witness :
  ZipEntry.sequentially Samples.corrupt Samples.deflated_entry 2
    Samples.empty_world
  = (repeat (ZipEntry.Returned
               (JS.Throw (JS.Error "invalid stored block lengths"))) 2,
     {| ZipEntry.inflated_entries := [];
        ZipEntry.decompress_calls := repeat Samples.hi_deflated_blob 2 |}).
Proof.
  exact (proj1 (get_blob_failure_not_cached Samples.corrupt
                  Samples.deflated_entry
                  (fun _ => JS.Error "invalid stored block lengths") 2
                  Samples.empty_world eq_refl (fun _ => eq_refl) eq_refl)).
Defined.

Lemma get_blob_shared_by_identity_witness :
  let second := ZipEntry.new_ZipEntry Samples.noon Samples.hi_deflated_blob
                  8 7 0 in
  let w' := snd (ZipEntry.get_blob Samples.inflate Samples.deflated_entry
                   Samples.empty_world) in
  ZipEntry.get_blob Samples.inflate second w'
  = (JS.Ok {| JS.identity := 102; JS.content := list_byte_of_string "hi" |},
     w').
Proof.
  exact (proj1 (get_blob_shared_by_identity Samples.inflate
                  Samples.deflated_entry
                  (ZipEntry.new_ZipEntry Samples.noon
                     Samples.hi_deflated_blob 8 7 0)
                  Samples.empty_world
                  {| JS.identity := 102;
                     JS.content := list_byte_of_string "hi" |}
                  eq_refl eq_refl eq_refl eq_refl) eq_refl).
Defined.
